(** * eg-react: a shallow embedding of the browser's state containers

    The development covers four units of the repository:

    - [GenomeModelService] (the per-chromosome geometry cache),
    - [TrackContainer] (track selection by click),
    - [GenomeNavigator] (the view region with its minimum width),
    - [HicTrackConfig] (the refetch predicate of a Hi-C track).

    JavaScript numbers are the doubles: the rationals that binary64
    represents, the two infinities and NaN, with subtraction and division
    rounded to the nearest double.  JavaScript objects that are compared by
    reference carry an allocation identity. *)

From Stdlib Require Import QArith Qcanon Qround.
From stdpp Require Import base numbers list strings gmap.

Local Open Scope Qc_scope.

(** ** Objects with identity

    An object created by an object literal, by [new] or by [clone()] has an
    identity of its own: two objects with the same fields are still different
    references.  [oid] is the allocation number of the object, [val] its
    fields.  Reference equality ([===] on objects) is equality of [oid]. *)

Record Obj (A : Type) := MkObj { oid : nat; val : A }.
Arguments MkObj {A} _ _.
Arguments oid {A} _.
Arguments val {A} _.

Definition same_ref {A} (a b : Obj A) : Prop := oid a = oid b.


(** ** JavaScript numbers *)

Module JsNumber.

(** A finite number is given by its value, a rational; the numbers that
    arithmetic produces are doubles.  There is one zero. *)
Inductive number : Type :=
| NaN
| NegInf
| Fin (q : Qc)
| PosInf.

Definition of_Z (n : Z) : number := Fin (Qc_of_Z n).

Definition Qc_ltb (a b : Qc) : bool := bool_decide (a < b).
Definition Qc_eqb (a b : Qc) : bool := bool_decide (a = b).

(** *** Rounding to the nearest double *)

(** [2^e] *)
Definition pow2 (e : Z) : Qc :=
  if bool_decide (0 ≤ e)%Z then Qc_of_Z (2 ^ e) else / Qc_of_Z (2 ^ (- e)).

(** The binary exponent of a positive rational [a]: the [e] with
    [2^e <= a < 2^(e+1)]. *)
Definition exponent (a : Qc) : Z :=
  let e := (Z.log2 (Qnum a) - Z.log2 (Zpos (Qden a)))%Z in
  if Qc_ltb a (pow2 e) then (e - 1)%Z else e.

(** The integer nearest to a nonnegative rational, the even one of two that
    are equally near. *)
Definition round_half_even (m : Qc) : Z :=
  let f := Qfloor m in
  let r := m - Qc_of_Z f in
  if Qc_ltb r (1 / Qc_of_Z 2) then f
  else if Qc_ltb (1 / Qc_of_Z 2) r then (f + 1)%Z
  else if Z.even f then f else (f + 1)%Z.

(** The magnitude of the double nearest to a nonnegative rational [a],
    before overflow: [a] rounded to a multiple of its unit in the last of
    53 binary places, and of [2^-1074] below [2^-1022]. *)
Definition magnitude (a : Qc) : Qc :=
  let e := Z.max (exponent a) (-1022) in
  let ulp := pow2 (e - 52) in
  Qc_of_Z (round_half_even (a / ulp)) * ulp.

(** The double nearest to a rational, an infinity from [2^1024] on. *)
Definition round64 (q : Qc) : number :=
  if Qc_ltb q 0 then
    (if Qc_ltb (magnitude (- q)) (pow2 1024) then Fin (- magnitude (- q))
     else NegInf)
  else
    (if Qc_ltb (magnitude q) (pow2 1024) then Fin (magnitude q)
     else PosInf).

(** *** Operations *)

(** [Math.min(a, b)] *)
Definition min (a b : number) : number :=
  match a, b with
  | NaN, _ | _, NaN => NaN
  | NegInf, _ | _, NegInf => NegInf
  | PosInf, n | n, PosInf => n
  | Fin p, Fin q => if Qc_ltb q p then Fin q else Fin p
  end.

(** [Math.max(a, b)] *)
Definition max (a b : number) : number :=
  match a, b with
  | NaN, _ | _, NaN => NaN
  | PosInf, _ | _, PosInf => PosInf
  | NegInf, n | n, NegInf => n
  | Fin p, Fin q => if Qc_ltb p q then Fin q else Fin p
  end.

(** [Math.max(a, b, c)] *)
Definition max3 (a b c : number) : number := max (max a b) c.

(** [a - b] *)
Definition sub (a b : number) : number :=
  match a, b with
  | NaN, _ | _, NaN => NaN
  | PosInf, PosInf | NegInf, NegInf => NaN
  | PosInf, _ | _, NegInf => PosInf
  | NegInf, _ | _, PosInf => NegInf
  | Fin p, Fin q => round64 (p - q)
  end.

(** [a / b]; a zero divisor is the positive zero, the only zero that the
    subtractions of this development produce. *)
Definition div (a b : number) : number :=
  match a, b with
  | NaN, _ | _, NaN => NaN
  | (PosInf | NegInf), (PosInf | NegInf) => NaN
  | PosInf, Fin q => if Qc_ltb q 0 then NegInf else PosInf
  | NegInf, Fin q => if Qc_ltb q 0 then PosInf else NegInf
  | Fin _, (PosInf | NegInf) => Fin 0
  | Fin p, Fin q =>
      if Qc_eqb q 0 then
        (if Qc_eqb p 0 then NaN else if Qc_ltb p 0 then NegInf else PosInf)
      else round64 (p / q)
  end.

Definition zero : number := Fin 0.
Definition one : number := Fin 1.

(** [a <= b] *)
Definition le (a b : number) : Prop :=
  match a, b with
  | NaN, _ | _, NaN => False
  | NegInf, _ | _, PosInf => True
  | Fin p, Fin q => p ≤ q
  | _, _ => False
  end.

(** [a < b] *)
Definition lt (a b : number) : bool :=
  match a, b with
  | NaN, _ | _, NaN => false
  | NegInf, NegInf | PosInf, PosInf => false
  | NegInf, _ | _, PosInf => true
  | Fin p, Fin q => Qc_ltb p q
  | _, _ => false
  end.

(** [Number.isFinite(a)] *)
Definition finite (a : number) : Prop :=
  match a with
  | Fin _ => True
  | _ => False
  end.

End JsNumber.


(** ** JavaScript arrays *)

Module JsArray.

(** The index at which [splice] starts: a negative [start] counts from the
    end, and the index is held within the array. *)
Definition relative_start (len : nat) (start : Z) : nat :=
  if bool_decide (start < 0)%Z then Z.to_nat (Z.max (Z.of_nat len + start) 0)
  else Z.to_nat (Z.min start (Z.of_nat len)).

(** [array.splice(start, deleteCount, ...items)]: the removed elements and
    the array after the call. *)
Definition splice {A} (start deleteCount : Z) (items : list A) (array : list A)
  : list A * list A :=
  let from := relative_start (length array) start in
  let count :=
    Z.to_nat (Z.min (Z.max deleteCount 0) (Z.of_nat (length array - from))) in
  (take count (drop from array),
   take from array ++ items ++ drop (from + count) array).

End JsArray.

(** ** The parts of three.js and d3 that the service uses *)

Module THREE.
Import JsNumber.

Record Vector3 := MkVector3 { x : number; y : number; z : number }.

(** [new THREE.Vector3(...pos)]: the constructor's parameters default to 0,
    arguments after the third are ignored. *)
Definition Vector3_new (pos : list number) : Vector3 :=
  {| x := default zero (pos !! 0%nat);
     y := default zero (pos !! 1%nat);
     z := default zero (pos !! 2%nat) |}.

Definition Vector3_min (a b : Vector3) : Vector3 :=
  {| x := JsNumber.min (x a) (x b);
     y := JsNumber.min (y a) (y b);
     z := JsNumber.min (z a) (z b) |}.

Definition Vector3_max (a b : Vector3) : Vector3 :=
  {| x := JsNumber.max (x a) (x b);
     y := JsNumber.max (y a) (y b);
     z := JsNumber.max (z a) (z b) |}.

Record Box3 := MkBox3 { min : Vector3; max : Vector3 }.

(** [new THREE.Box3()] is the empty box. *)
Definition Box3_new : Box3 :=
  {| min := MkVector3 PosInf PosInf PosInf;
     max := MkVector3 NegInf NegInf NegInf |}.

Definition expandByPoint (box : Box3) (point : Vector3) : Box3 :=
  {| min := Vector3_min (min box) point;
     max := Vector3_max (max box) point |}.

(** All three coordinates are finite numbers. *)
Definition Vector3_finite (v : Vector3) : Prop :=
  finite (x v) ∧ finite (y v) ∧ finite (z v).

(** [box.containsPoint(point)] *)
Definition containsPoint (box : Box3) (point : Vector3) : Prop :=
  le (x (min box)) (x point) ∧ le (x point) (x (max box))
  ∧ le (y (min box)) (y point) ∧ le (y point) (y (max box))
  ∧ le (z (min box)) (z point) ∧ le (z point) (z (max box)).

End THREE.

Module D3.
Import JsNumber.

Record ScaleLinear := MkScale
  { domain : number * number; range : number * number }.

(** [d3.scaleLinear()] *)
Definition scaleLinear : ScaleLinear :=
  {| domain := (zero, one); range := (zero, one) |}.

(** [scale.domain([a, b])] *)
Definition set_domain (d : number * number) (s : ScaleLinear) : ScaleLinear :=
  {| domain := d; range := range s |}.

(** [scale.range([a, b])] *)
Definition set_range (r : number * number) (s : ScaleLinear) : ScaleLinear :=
  {| domain := domain s; range := r |}.

End D3.

(** ** GenomeModelService *)

Module GenomeModelService.
Import JsNumber.

(** [RangeInterval] is a pair [[start, end]]. *)
Definition RangeInterval : Type := number * number.

(** [ChromosomeInterval] is a class of another module of the application:
    its instances and its constructor are parameters.
    [ChromosomeInterval_new chr start end] is
    [new ChromosomeInterval(chr, start, end)], [None] when the constructor
    throws. *)
Class ChromosomeIntervalClass := MkChromosomeIntervalClass
  { ChromosomeInterval : Type;
    ChromosomeInterval_new :
      string → number → number → option ChromosomeInterval }.

(** The document that [response.json()] gives, as far as the call reads it,
    with the types that lines 42 and 43 declare.  A property that is absent
    or is not an array is [None]; an entry of an array that is [null] is
    [None]; the numbers are doubles. *)
Record ModelData := MkModelData
  { data_genomicCoords : option (list (option RangeInterval));
    data_xyzPositions : option (list (option (list number))) }.

(** The bounding box of the positions: every point expands the empty box. *)
Definition boundingBoxOf (positions : list THREE.Vector3) : THREE.Box3 :=
  foldl THREE.expandByPoint THREE.Box3_new positions.

Definition xLen (b : THREE.Box3) : number :=
  sub (THREE.x (THREE.max b)) (THREE.x (THREE.min b)).
Definition yLen (b : THREE.Box3) : number :=
  sub (THREE.y (THREE.max b)) (THREE.y (THREE.min b)).
Definition zLen (b : THREE.Box3) : number :=
  sub (THREE.z (THREE.max b)) (THREE.z (THREE.min b)).
Definition largestLen (b : THREE.Box3) : number :=
  max3 (xLen b) (yLen b) (zLen b).

(** The names of the properties of [Object.prototype], which every object
    literal inherits. *)
Definition objectPrototypeNames : list string :=
  ["constructor"; "__defineGetter__"; "__defineSetter__"; "hasOwnProperty";
   "__lookupGetter__"; "__lookupSetter__"; "isPrototypeOf";
   "propertyIsEnumerable"; "toString"; "valueOf"; "__proto__";
   "toLocaleString"].

(** The names of the properties of the object literal of line 77. *)
Definition detailsPropertyNames : list string :=
  ["boundingBox"; "x"; "y"; "z"; "positions"; "genomicCoords"; "interval"].

Inductive Error := MkError (message : string).

Definition message (e : Error) : string := let 'MkError m := e in m.

Inductive Result (A : Type) :=
| Return (a : A)
| Throw (e : Error).
Arguments Return {A} _.
Arguments Throw {A} _.

Section Service.

Context `{ChromosomeIntervalClass}.

Record ChromosomeModelDetails := MkDetails
  { boundingBox : THREE.Box3;
    x : D3.ScaleLinear;
    y : D3.ScaleLinear;
    z : D3.ScaleLinear;
    positions : list THREE.Vector3;
    genomicCoords : list RangeInterval;
    interval : ChromosomeInterval }.

(** Lines 40 to 85 of [loadChromosomeAsync]: the details computed from the
    fetched document.  [None] is a [TypeError], or what the constructor of
    the interval throws: at line 43 when [xyzPositions] is no array or
    holds [null], at lines 46 and 47 when [genomicCoords] is no array or
    holds [null], at line 54 when [genomicCoords] is empty, at line 52 in
    the constructor.  The [console.log] calls are not modelled. *)
Definition buildDetails (data : ModelData) : option ChromosomeModelDetails :=
  let genomicCoords := data_genomicCoords data in
  xyzPositions ← data_xyzPositions data;
  positions ← mapM (fmap THREE.Vector3_new) xyzPositions;
  let boundingBox := boundingBoxOf positions in
  genomicCoords ← genomicCoords;
  genomicCoords ← mapM id genomicCoords;
  first ← head genomicCoords;
  final ← last genomicCoords;
  interval ← ChromosomeInterval_new "chr21" (fst first) (snd final);
  let x :=
    D3.set_range (zero, div (xLen boundingBox) (largestLen boundingBox))
      (D3.set_domain (THREE.x (THREE.min boundingBox),
                      THREE.x (THREE.max boundingBox)) D3.scaleLinear) in
  let y :=
    D3.set_range (zero, div (yLen boundingBox) (largestLen boundingBox))
      (D3.set_domain (THREE.y (THREE.min boundingBox),
                      THREE.y (THREE.max boundingBox)) D3.scaleLinear) in
  let z :=
    D3.set_range (zero, div (zLen boundingBox) (largestLen boundingBox))
      (D3.set_domain (THREE.z (THREE.min boundingBox),
                      THREE.z (THREE.max boundingBox)) D3.scaleLinear) in
  Some {| boundingBox := boundingBox; x := x; y := y; z := z;
          positions := positions; genomicCoords := genomicCoords;
          interval := interval |}.

(** The service object: its only field is the cache, the object literal
    [{}] of line 17.  The map holds the properties that the cache has of
    its own; the entry at ["__proto__"], if any, is the prototype that an
    assignment to that name has given the cache in place of
    [Object.prototype]. *)
Record Service := MkService
  { loadedChromosomes : gmap string (Obj ChromosomeModelDetails) }.

Definition empty : Service := {| loadedChromosomes := ∅ |}.

(** What [this.loadedChromosomes[chr]] can be: details stored by line 77,
    a property of details that have become the prototype, or a property of
    [Object.prototype].  All of them are objects or functions: none is
    falsy. *)
Inductive value :=
| Details (details : Obj ChromosomeModelDetails)
| DetailsProperty (holder : Obj ChromosomeModelDetails) (name : string)
| ObjectPrototypeProperty (name : string).

Definition fromObjectPrototype (name : string) : option value :=
  if bool_decide (name ∈ objectPrototypeNames)
  then Some (ObjectPrototypeProperty name)
  else None.

(** The property [name] along the prototype chain of the cache. *)
Definition inherited (own : gmap string (Obj ChromosomeModelDetails))
    (name : string) : option value :=
  match own !! "__proto__" with
  | Some holder =>
      if bool_decide (name ∈ detailsPropertyNames)
      then Some (DetailsProperty holder name)
      else fromObjectPrototype name
  | None => fromObjectPrototype name
  end.

(** [this.loadedChromosomes[chr]]; [None] is [undefined]. *)
Definition get (own : gmap string (Obj ChromosomeModelDetails))
    (chr : string) : option value :=
  match own !! chr with
  | Some details => Some (Details details)
  | None => inherited own chr
  end.

Definition hasChromosome (chr : string) (this : Service) : bool :=
  match get (loadedChromosomes this) chr with
  | Some _ => true
  | None => false
  end.

(** [loadChromosome] in state-passing style: the result and the service
    after the call. *)
Definition loadChromosome (chr : string) (this : Service)
  : Result value * Service :=
  match get (loadedChromosomes this) chr with
  | Some details => (Return details, this)
  | None => (Throw (MkError ("chromosome " +:+ chr +:+ " not loaded")), this)
  end.

(** *** [loadChromosomeAsync] on the event loop

    The asynchronous function runs to its first [await] when it is called,
    and from the settlement of the fetch to its end when it is resumed;
    other calls may run in between.  The world holds the service, the calls
    suspended on their fetch (oldest first) and the allocation counter of
    the details objects. *)
Record World := MkWorld
  { service : Service;
    inflight : list string;
    nextOid : nat }.

Definition init : World :=
  {| service := empty; inflight := []; nextOid := 0 |}.

Definition cache (w : World) : gmap string (Obj ChromosomeModelDetails) :=
  loadedChromosomes (service w).

(** [Call chr]: [loadChromosomeAsync(chr)] is called.  [Settle k response]:
    the fetch of the [k]-th suspended call settles and the call runs to its
    end; [response] is the parsed document, or [None] when [fetch] or
    [response.json()] rejects. *)
Inductive event :=
| Call (chr : string)
| Settle (k : nat) (response : option ModelData).

(** How a step ends: the call returns what it finds in the cache, suspends
    on its fetch, returns the object it has just stored, or rejects;
    [NoSuchCall] answers a settlement that no suspended call waits for. *)
Inductive outcome :=
| Hit (chr : string) (found : value)
| Suspended (chr : string)
| Fetched (chr : string) (details : Obj ChromosomeModelDetails)
| Rejected (chr : string)
| NoSuchCall.

(** Lines 32 to 37: the cache test and the fetch. *)
Definition start_call (chr : string) (w : World) : World * outcome :=
  match get (loadedChromosomes (service w)) chr with
  | Some details => (w, Hit chr details)
  | None =>
      ({| service := service w;
          inflight := inflight w ++ [chr];
          nextOid := nextOid w |}, Suspended chr)
  end.

(** Lines 38 to 87: the rest of the call, once its fetch has settled.  The
    object literal of line 77 is a new object; line 87 reads back the entry
    that line 77 wrote. *)
Definition resume_call (chr : string) (response : option ModelData)
    (w : World) : World * outcome :=
  match response ≫= buildDetails with
  | None => (w, Rejected chr)
  | Some details =>
      let object := MkObj (nextOid w) details in
      ({| service :=
            {| loadedChromosomes :=
                 <[chr := object]> (loadedChromosomes (service w)) |};
          inflight := inflight w;
          nextOid := S (nextOid w) |}, Fetched chr object)
  end.

Definition step (w : World) (e : event) : World * outcome :=
  match e with
  | Call chr => start_call chr w
  | Settle k response =>
      match inflight w !! k with
      | None => (w, NoSuchCall)
      | Some chr =>
          resume_call chr response
            {| service := service w;
               inflight := delete k (inflight w);
               nextOid := nextOid w |}
      end
  end.

Fixpoint run (w : World) (evs : list event) : World * list outcome :=
  match evs with
  | [] => (w, [])
  | e :: evs =>
      let '(w1, o) := step w e in
      let '(w2, os) := run w1 evs in
      (w2, o :: os)
  end.

(** A call that is awaited with nothing else running in between. *)
Definition loadChromosomeAsync (chr : string) (response : option ModelData)
    (w : World) : World * outcome :=
  match start_call chr w with
  | (w1, Suspended _) =>
      step w1 (Settle (length (inflight w1) - 1) response)
  | r => r
  end.

(** The call [o] is a successful [loadChromosomeAsync(chr)]. *)
Definition succeeded (chr : string) (o : outcome) : bool :=
  match o with
  | Hit c _ | Fetched c _ => bool_decide (c = chr)
  | _ => false
  end.

(** The chromosome and the value that a successful call resolves to. *)
Definition returned (o : outcome) : option (string * value) :=
  match o with
  | Hit c found => Some (c, found)
  | Fetched c details => Some (c, Details details)
  | _ => None
  end.

(** The chromosome and the details that a successful call resolves to, when
    it resolves to details. *)
Definition resolved (o : outcome)
  : option (string * Obj ChromosomeModelDetails) :=
  match o with
  | Hit c (Details details) | Fetched c details => Some (c, details)
  | _ => None
  end.

(** The call [o] wrote the cache entry of [chr]. *)
Definition stored (chr : string) (o : outcome) : bool :=
  match o with
  | Fetched c _ => bool_decide (c = chr)
  | _ => false
  end.


(** Every cached object was allocated before the counter's value. *)
Definition oids_below (w : World) : Prop :=
  ∀ c d, cache w !! c = Some d → (oid d < nextOid w)%nat.

(** [chr] is cached and no call for it is suspended. *)
Definition settled (chr : string) (w : World) : Prop :=
  is_Some (cache w !! chr) ∧ chr ∉ inflight w.

(** The state of the runs of a new service: the cache has no property of
    its own under a name of [Object.prototype], so that its prototype is
    still [Object.prototype], and no suspended call is for such a name. *)
Definition plain (w : World) : Prop :=
  (∀ c, c ∈ objectPrototypeNames → cache w !! c = None)
  ∧ Forall (λ c, c ∉ objectPrototypeNames) (inflight w).

End Service.

End GenomeModelService.


(** ** TrackContainer *)

Module TrackContainer.

(** [TrackModel] is a class of another module of the application.

    Modelled from the spec: a track descriptor has an identity, a display
    configuration and a [selected] flag, and [clone()] makes a new
    descriptor with the same field values. *)
Record TrackModel := MkTrackModel
  { trackId : string;
    options : list (string * string);
    isSelected : bool }.

Definition setSelected (b : bool) (t : TrackModel) : TrackModel :=
  {| trackId := trackId t; options := options t; isSelected := b |}.

(** Handlers allocate objects and may raise a [TypeError]: a computation
    takes the allocation counter and gives its result with the new counter,
    or [None] when it throws. *)
Definition M (A : Type) : Type := nat → option (A * nat).

Definition ret {A} (a : A) : M A := λ n, Some (a, n).
Definition throw {A} : M A := λ _, None.
Definition bind {A B} (m : M A) (k : A → M B) : M B :=
  λ n, match m n with
       | Some (a, n') => k a n'
       | None => None
       end.

Notation "'do' x <- m ; k" := (bind m (λ x, k))
  (at level 10, x name, m at level 100, k at level 200).

Fixpoint mapM {A B} (f : A → M B) (l : list A) : M (list B) :=
  match l with
  | [] => ret []
  | a :: l =>
      do b <- f a;
      do bs <- mapM f l;
      ret (b :: bs)
  end.

(** [track.clone()] *)
Definition clone (track : Obj TrackModel) : M (Obj TrackModel) :=
  λ n, Some (MkObj n (val track), S n).

Record MouseEvent := MkMouseEvent { button : Z; ctrlKey : bool }.

Section Handlers.

(** [MouseButtons.LEFT], a constant of [util]. *)
Variable LEFT : Z.

(** [this.props.tracks] *)
Variable tracks : list (Obj TrackModel).

(** [toggleOneTrack(tracks, index)] writes into the array it is given;
    its callers pass a fresh copy, so the array is threaded as a value.
    At an index without an element [tracks[index].clone()] is a
    [TypeError]. *)
Definition toggleOneTrack (tracks : list (Obj TrackModel)) (index : nat)
  : M (list (Obj TrackModel)) :=
  match tracks !! index with
  | None => throw
  | Some track =>
      do copy <- clone track;
      ret (<[index := MkObj (oid copy)
                        (setSelected (negb (isSelected (val copy)))
                                     (val copy))]> tracks)
  end.

(** The callback of the [map] in [deselectAllTracks]. *)
Definition deselect (track : Obj TrackModel) : M (Obj TrackModel) :=
  if isSelected (val track) then
    do copy <- clone track;
    ret (MkObj (oid copy) (setSelected false (val copy)))
  else ret track.

(** [deselectAllTracks()] *)
Definition deselectAllTracks : M (list (Obj TrackModel)) :=
  mapM deselect tracks.

(** The handlers return the argument of their call of
    [this.props.onTracksChanged], if they make one. *)
Definition trackClicked (event : MouseEvent) (index : nat)
  : M (option (list (Obj TrackModel))) :=
  if bool_decide (button event = LEFT) && ctrlKey event then
    let nextTracks := tracks in
    do nextTracks <- toggleOneTrack nextTracks index;
    ret (Some nextTracks)
  else ret None.

Definition handleContextMenuEvent (event : MouseEvent) (index : nat)
  : M (option (list (Obj TrackModel))) :=
  if ctrlKey event then trackClicked event index
  else
    match tracks !! index with
    | None => throw
    | Some track =>
        if negb (isSelected (val track)) then
          do nextTracks <- deselectAllTracks;
          do nextTracks <- toggleOneTrack nextTracks index;
          ret (Some nextTracks)
        else ret None
    end.

Definition handleMenuCloseRequest (event : MouseEvent) : bool :=
  negb (ctrlKey event).

Definition handleOutsideClick (event : MouseEvent)
  : M (option (list (Obj TrackModel))) :=
  if existsb (λ track, isSelected (val track)) tracks then
    do nextTracks <- deselectAllTracks;
    ret (Some nextTracks)
  else ret None.

(** What [deselectAllTracks] makes of a track: not selected, the other
    fields kept. *)
Definition deselected (track track' : Obj TrackModel) : Prop :=
  isSelected (val track') = false
  ∧ trackId (val track') = trackId (val track)
  ∧ options (val track') = options (val track).

(** The collection after the parent has taken the change, if any. *)
Definition tracksAfter (emitted : option (list (Obj TrackModel)))
  : list (Obj TrackModel) :=
  default tracks emitted.

(** [requestTrackReorder(fromIndex, toIndex)] returns the argument of its
    call of [this.props.onTracksChanged].  An element of the array is a
    track or [undefined] ([None]): [moved] is [undefined] when the first
    [splice] removes nothing. *)
Definition requestTrackReorder (fromIndex toIndex : Z)
  : list (option (Obj TrackModel)) :=
  let newOrder := Some <$> tracks in
  let '(removed, newOrder) := JsArray.splice fromIndex 1 [] newOrder in
  let moved := default None (head removed) in
  let '(_, newOrder) := JsArray.splice toIndex 0 [moved] newOrder in
  newOrder.

End Handlers.

(** *** The tool buttons *)

Definition tools_DRAG : Z := 0.
Definition tools_ZOOM : Z := 1.
Definition tools_REORDER : Z := 2.

(** The object [tools], in the order of its properties. *)
Definition tools : list (string * Z) :=
  [("DRAG", tools_DRAG); ("ZOOM", tools_ZOOM); ("REORDER", tools_REORDER)].

Definition toolButtonContent : gmap Z string :=
  <[tools_REORDER := "🔀"]> (<[tools_ZOOM := "🔍"]> (<[tools_DRAG := "✋"]> ∅)).

Record State := MkState
  { selectedTool : Z;
    contextMenuEvent : option MouseEvent }.

(** The state that the constructor sets. *)
Definition initialState : State :=
  {| selectedTool := tools_DRAG; contextMenuEvent := None |}.

(** A rendered button; [onClick] is the tool that a click selects. *)
Record Button := MkButton
  { key : Z;
    className : string;
    onClick : Z;
    content : option string }.

Definition renderToolSelectButtons (this : State) : list Button :=
  (λ '(toolName, tool),
     {| key := tool;
        className :=
          if bool_decide (tool = selectedTool this) then "btn btn-primary"
          else "btn btn-light";
        onClick := tool;
        content := toolButtonContent !! tool |}) <$> tools.

(** [this.setState({selectedTool: tool})] *)
Definition click (b : Button) (this : State) : State :=
  {| selectedTool := onClick b; contextMenuEvent := contextMenuEvent this |}.

(** A click on the [i]-th rendered button, if there is one. *)
Definition clickButton (this : State) (i : nat) : State :=
  match renderToolSelectButtons this !! i with
  | Some b => click b this
  | None => this
  end.

Inductive SubContainer :=
| ReorderableTrackContainer
| ZoomableTrackContainer
| DraggableTrackContainer.

Definition renderSubContainer (this : State) : SubContainer :=
  if bool_decide (selectedTool this = tools_REORDER) then
    ReorderableTrackContainer
  else if bool_decide (selectedTool this = tools_ZOOM) then
    ZoomableTrackContainer
  else DraggableTrackContainer.

Definition highlighted (b : Button) : bool :=
  bool_decide (className b = "btn btn-primary").

End TrackContainer.

(** ** DisplayedRegionModel and GenomeNavigator *)

Module DisplayedRegionModel.

(** The methods of the view model that the navigator calls.  [clone()]
    copies the model, so that a method applied to the copy leaves the model
    in the state untouched: the methods are functions from model to
    model.  The width is a number, NaN and the infinities included. *)
Class Methods (R : Type) := MkMethods
  { getWidth : R → JsNumber.number;
    zoom : Qc → option Qc → R → R;
    setRegion : Qc → Qc → R → R }.

(** [DisplayedRegionModel] is a class of another module of the application.

    Modelled from the spec: a view region is an interval of a coordinate
    space; [zoom] scales it by a factor around a focal point, given as a
    fraction of the width and taken to be the middle when absent;
    [setRegion] sets the interval.  The minimum width is not the model's
    business: the navigator tests it, at line 76. *)
Record t := MkRegion { startBase : Qc; endBase : Qc }.

Definition width (r : t) : Qc := endBase r - startBase r.

Definition half : Qc := 1 / 2.

Definition scale (factor : Qc) (focalPoint : option Qc) (r : t) : t :=
  let focalPoint := default half focalPoint in
  let newWidth := width r * factor in
  let focalBase := startBase r + focalPoint * width r in
  let newStart := focalBase - focalPoint * newWidth in
  {| startBase := newStart; endBase := newStart + newWidth |}.

Definition setInterval (newStart newEnd : Qc) (r : t) : t :=
  {| startBase := newStart; endBase := newEnd |}.

#[global] Instance methods : Methods t :=
  {| getWidth := λ r, JsNumber.Fin (width r);
     zoom := scale;
     setRegion := setInterval |}.

End DisplayedRegionModel.

Module GenomeNavigator.

(** [methodName] with its [args]. *)
Inductive method :=
| zoom_ (amount : Qc) (focusPoint : option Qc)
| setRegion_ (newStart newEnd : Qc).

Section Navigator.

(** [MIN_VIEW_REGION_SIZE], a constant of [AppState]. *)
Variable MIN_VIEW_REGION_SIZE : Qc.

Context {R : Type} `{DisplayedRegionModel.Methods R}.

Record State := MkState { viewRegion : R }.

(** [regionCopy[methodName].apply(regionCopy, args)] *)
Definition apply (m : method) (regionCopy : R) : R :=
  match m with
  | zoom_ amount focusPoint =>
      DisplayedRegionModel.zoom amount focusPoint regionCopy
  | setRegion_ newStart newEnd =>
      DisplayedRegionModel.setRegion newStart newEnd regionCopy
  end.

Definition _setModelState (m : method) (this : State) : State :=
  let regionCopy := apply m (viewRegion this) in
  if JsNumber.lt (DisplayedRegionModel.getWidth regionCopy)
                 (JsNumber.Fin MIN_VIEW_REGION_SIZE)
  then this
  else {| viewRegion := regionCopy |}.

Definition zoom (amount : Qc) (focusPoint : option Qc) (this : State)
  : State :=
  _setModelState (zoom_ amount focusPoint) this.

Definition setNewView (newStart newEnd : Qc) (this : State) : State :=
  _setModelState (setRegion_ newStart newEnd) this.

(** The width that the zoom controls show. *)
Definition shownWidth (this : State) : JsNumber.number :=
  DisplayedRegionModel.getWidth (viewRegion this).

End Navigator.

Arguments State : clear implicits.
Arguments MkState {R} _.
Arguments viewRegion {R} _.

End GenomeNavigator.

(** ** HicTrackConfig *)

Module HicTrackConfig.

Section Options.

(** [NormalizationMode] and [BinSize] are the enumerations of
    [HicDataModes]; [Other] stands for the options that the Hi-C track
    shares with the other tracks. *)
Context {NormalizationMode BinSize Other : Type}.
Context `{EqDecision NormalizationMode} `{EqDecision BinSize}.

Record TrackOptions := MkTrackOptions
  { normalization : NormalizationMode;
    binSize : BinSize;
    others : Other }.

(** [a !== b] on values of an enumeration *)
Definition strict_ne {A} `{EqDecision A} (a b : A) : bool :=
  negb (bool_decide (a = b)).

Definition shouldFetchBecauseOptionChange
    (oldOptions newOptions : TrackOptions) : bool :=
  strict_ne (normalization oldOptions) (normalization newOptions)
  || strict_ne (binSize oldOptions) (binSize newOptions).

End Options.

Arguments TrackOptions : clear implicits.

End HicTrackConfig.

(** ** Sample values *)

Module Samples.
Import JsNumber.

(** A constructor of intervals that keeps its three arguments and never
    throws. *)
#[global] Instance plain_intervals
  : GenomeModelService.ChromosomeIntervalClass :=
  {| GenomeModelService.ChromosomeInterval := string * number * number;
     GenomeModelService.ChromosomeInterval_new :=
       λ chr start end_, Some (chr, start, end_) |}.

(** Three points whose bounding box is [0,0,0]-[10,5,2]. *)
Definition chr1_data : GenomeModelService.ModelData :=
  {| GenomeModelService.data_genomicCoords :=
       Some [Some (of_Z 0, of_Z 10); Some (of_Z 10, of_Z 25)];
     GenomeModelService.data_xyzPositions :=
       Some [Some [of_Z 0; of_Z 0; of_Z 0];
             Some [of_Z 10; of_Z 5; of_Z 2];
             Some [of_Z 3; of_Z 1; of_Z 1]] |}.



Definition one_fifth : number :=
  Fin (Qc_of_Z 3602879701896397 / Qc_of_Z 18014398509481984).

(** A model with a single point. *)
Definition point_data : GenomeModelService.ModelData :=
  {| GenomeModelService.data_genomicCoords := Some [Some (of_Z 0, of_Z 10)];
     GenomeModelService.data_xyzPositions :=
       Some [Some [of_Z 1; of_Z 2; of_Z 3]] |}.

(** A model with genomic coordinates and no position. *)
Definition no_positions_data : GenomeModelService.ModelData :=
  {| GenomeModelService.data_genomicCoords := Some [Some (of_Z 0, of_Z 10)];
     GenomeModelService.data_xyzPositions := Some [] |}.

(** Two calls for the same chromosome that overlap. *)
Definition overlapping : list GenomeModelService.event :=
  [GenomeModelService.Call "chr1";
   GenomeModelService.Call "chr1";
   GenomeModelService.Settle 0 (Some chr1_data);
   GenomeModelService.Settle 0 (Some chr1_data)].

(** A call awaited to its end before anything else runs. *)
Definition sequential : list GenomeModelService.event :=
  [GenomeModelService.Call "chr1";
   GenomeModelService.Settle 0 (Some chr1_data)].


Definition two_tracks : list (Obj TrackContainer.TrackModel) :=
  [MkObj 0 (TrackContainer.MkTrackModel "a" [] false);
   MkObj 1 (TrackContainer.MkTrackModel "b" [] false)].

Definition ctrl_left_click : TrackContainer.MouseEvent :=
  TrackContainer.MkMouseEvent 0 true.

Definition wide_region : GenomeNavigator.State DisplayedRegionModel.t :=
  GenomeNavigator.MkState (DisplayedRegionModel.MkRegion 0 (Qc_of_Z 200)).

Definition hundred : Qc := Qc_of_Z 100.
Definition quarter : Qc := 1 / Qc_of_Z 4.

Definition three_tracks : list (Obj TrackContainer.TrackModel) :=
  [MkObj 0 (TrackContainer.MkTrackModel "a" [] false);
   MkObj 1 (TrackContainer.MkTrackModel "b" [] false);
   MkObj 2 (TrackContainer.MkTrackModel "c" [] true)].

Definition right_click : TrackContainer.MouseEvent :=
  TrackContainer.MkMouseEvent 2 false.

(** A document without genomic coordinates. *)
Definition no_coords_data : GenomeModelService.ModelData :=
  {| GenomeModelService.data_genomicCoords := Some [];
     GenomeModelService.data_xyzPositions :=
       Some [Some [of_Z 1; of_Z 2; of_Z 3]] |}.

End Samples.

(** * Properties *)

(** ** Numbers *)

Section Numbers.
Import JsNumber.

Lemma pow2_pos e : 0 < pow2 e.
Proof.
  assert (∀ k, (0 ≤ k)%Z → 0 < Qc_of_Z (2 ^ k)) as Hpos.
  { intros k Hk. rewrite <- Z2Qc_inj_0. apply (proj1 (Z2Qc_inj_lt _ _)).
    by apply Z.pow_pos_nonneg. }
  unfold pow2. case_bool_decide.
  - by apply Hpos.
  - apply Qcinv_pos, Hpos. lia.
Qed.

Lemma Qfloor_nonneg (m : Qc) : 0 ≤ m → (0 ≤ Qfloor m)%Z.
Proof. intros Hm. apply (Qfloor_resp_le 0 m). exact Hm. Qed.

Lemma Qfloor_below (m : Qc) : Qc_of_Z (Qfloor m) ≤ m.
Proof. apply (Qfloor_le m). Qed.

Lemma Qfloor_at_most (m : Qc) z : m ≤ Qc_of_Z z → (Qfloor m ≤ z)%Z.
Proof.
  intros Hm. rewrite <- (Qfloor_Z z). apply Qfloor_resp_le. exact Hm.
Qed.

Lemma half_pos : 0 < 1 / Qc_of_Z 2.
Proof. reflexivity. Qed.

Lemma round_half_even_nonneg m : 0 ≤ m → (0 ≤ round_half_even m)%Z.
Proof.
  intros Hm. pose proof (Qfloor_nonneg m Hm). unfold round_half_even.
  repeat case_match; lia.
Qed.

(** Rounding to the nearest integer does not pass an integer bound. *)
Lemma round_half_even_at_most m z :
  m ≤ Qc_of_Z z → (round_half_even m ≤ z)%Z.
Proof.
  intros Hm. pose proof (Qfloor_at_most m z Hm) as Hf.
  unfold round_half_even.
  destruct (Qc_ltb (m - Qc_of_Z (Qfloor m)) (1 / Qc_of_Z 2)) eqn:Hlow;
    [done|].
  assert (Qfloor m < z)%Z; [|repeat case_match; lia].
  destruct (Z_lt_le_dec (Qfloor m) z) as [?|Hge]; [done|exfalso].
  apply bool_decide_eq_false in Hlow. apply Hlow.
  apply Qcle_lt_trans with 0; [|apply half_pos].
  assert (m ≤ Qc_of_Z (Qfloor m)) as Hle.
  { apply Qcle_trans with (Qc_of_Z z); [done|].
    by apply (proj1 (Z2Qc_inj_le _ _)). }
  apply (Qcplus_le_mono_r _ _ (- Qc_of_Z (Qfloor m))) in Hle.
  by rewrite Qcplus_opp_r in Hle.
Qed.

Lemma magnitude_nonneg a : 0 ≤ a → 0 ≤ magnitude a.
Proof.
  intros Ha. unfold magnitude.
  set (ulp := pow2 _). assert (0 < ulp) as Hulp by apply pow2_pos.
  apply Qcmult_nonneg_nonneg; [|by apply Qclt_le_weak].
  rewrite <- Z2Qc_inj_0.
  apply (proj1 (Z2Qc_inj_le _ _)), round_half_even_nonneg.
  apply Qcmult_nonneg_nonneg; [done|].
  by apply Qclt_le_weak, Qcinv_pos.
Qed.

(** The double nearest to a nonnegative rational is not negative. *)
Lemma round64_nonneg q :
  0 ≤ q → round64 q = PosInf ∨ ∃ r, round64 q = Fin r ∧ 0 ≤ r.
Proof.
  intros Hq. unfold round64, Qc_ltb.
  rewrite (bool_decide_eq_false_2 (q < 0)) by (by apply Qcle_not_lt).
  case_bool_decide; [right|by left].
  eexists. split; [done|]. by apply magnitude_nonneg.
Qed.


Lemma exponent_at_most_0 q : 0 ≤ q → q ≤ 1 → (exponent q ≤ 0)%Z.
Proof.
  intros H0 H1.
  assert (Z.log2 (Qnum q) - Z.log2 (Z.pos (Qden q)) ≤ 0)%Z as Hlog.
  { assert (Qnum q ≤ Z.pos (Qden q))%Z as Hnd.
    { unfold Qcle, Qle in H1. simpl in H1. lia. }
    pose proof (Z.log2_le_mono _ _ Hnd). lia. }
  unfold exponent. case_match; lia.
Qed.

(** The double nearest to a rational between 0 and 1 is between 0 and 1. *)
Lemma round64_unit q :
  0 ≤ q ≤ 1 → ∃ r, round64 q = Fin r ∧ 0 ≤ r ≤ 1.
Proof.
  intros [H0 H1].
  pose proof (magnitude_nonneg q H0) as Hnonneg.
  assert (magnitude q ≤ 1) as Hle.
  { unfold magnitude.
    set (e := Z.max (exponent q) (-1022)).
    assert (e ≤ 0)%Z as He.
    { pose proof (exponent_at_most_0 q H0 H1). lia. }
    unfold pow2. rewrite bool_decide_eq_false_2 by lia.
    set (K := Qc_of_Z (2 ^ (- (e - 52)))).
    assert (0 < K) as HK.
    { unfold K. rewrite <- Z2Qc_inj_0. apply (proj1 (Z2Qc_inj_lt _ _)).
      apply Z.pow_pos_nonneg; lia. }
    assert (K ≠ 0) as HK0 by (intros Heq; rewrite Heq in HK; by apply (Qclt_not_eq 0 0)).
    assert (q / (/ K) = q * K) as -> by (field; done).
    assert (q * K ≤ K) as HqK.
    { rewrite <- (Qcmult_1_l K) at 2.
      apply Qcmult_le_compat_r; [done|by apply Qclt_le_weak]. }
    pose proof (round_half_even_at_most (q * K) _ HqK) as Hr.
    apply (proj1 (Z2Qc_inj_le _ _)) in Hr. fold K in Hr.
    rewrite <- (Qcmult_inv_r K HK0).
    apply Qcmult_le_compat_r; [done|].
    by apply Qclt_le_weak, Qcinv_pos. }
  exists (magnitude q). split; [|done].
  unfold round64, Qc_ltb.
  rewrite (bool_decide_eq_false_2 (q < 0)) by (by apply Qcle_not_lt).
  rewrite bool_decide_eq_true_2; [done|].
  apply Qcle_lt_trans with 1; [done|]. reflexivity.
Qed.




(** Rounding at work: [2 / 10] is the double [0.2], not the rational
    [1/5]; [2^53 + 1] is no double and rounds to the even neighbour; the
    extent from [-2^1023] to [2^1023] overflows. *)
Lemma div_rounds : div (of_Z 2) (of_Z 10) = Samples.one_fifth.
Proof. vm_compute. f_equal. apply Qc_is_canon. reflexivity. Qed.

Lemma sub_rounds : sub (of_Z (2 ^ 53)) (of_Z (-1)) = of_Z (2 ^ 53).
Proof. vm_compute. f_equal. apply Qc_is_canon. reflexivity. Qed.

Lemma sub_overflows : sub (Fin (pow2 1023)) (Fin (- pow2 1023)) = PosInf.
Proof. by vm_compute. Qed.

Lemma overflowing_range :
  div (sub (Fin (pow2 1023)) (Fin (- pow2 1023)))
      (max3 (sub (Fin (pow2 1023)) (Fin (- pow2 1023))) zero zero)
  = NaN.
Proof. by vm_compute. Qed.

End Numbers.


(** ** GenomeModelService *)

Section ServiceFacts.
Import GenomeModelService.
Context `{ChromosomeIntervalClass}.

Implicit Types (w : World) (e : event) (o : outcome) (chr : string).
Implicit Types (m : gmap string (Obj ChromosomeModelDetails)).

Lemma get_Details m chr d : get m chr = Some (Details d) ↔ m !! chr = Some d.
Proof.
  unfold get, inherited, fromObjectPrototype.
  destruct (m !! chr) as [d'|]; [naive_solver|].
  split; [|done]. repeat case_match; done.
Qed.

(** The properties of a cache that has nothing of its own under the names
    of [Object.prototype]. *)
Lemma get_plain m chr :
  (∀ c, c ∈ objectPrototypeNames → m !! c = None) →
  get m chr = if bool_decide (chr ∈ objectPrototypeNames)
              then Some (ObjectPrototypeProperty chr)
              else Details <$> m !! chr.
Proof.
  intros Hnames. unfold get, inherited, fromObjectPrototype.
  rewrite (Hnames "__proto__")
    by (unfold objectPrototypeNames; rewrite !elem_of_cons; tauto).
  case_bool_decide as Hchr.
  - by rewrite (Hnames chr Hchr).
  - by destruct (m !! chr).
Qed.

(** An assignment never makes a property of the cache disappear. *)
Lemma get_is_Some_insert m k d chr :
  is_Some (get m chr) → is_Some (get (<[k:=d]> m) chr).
Proof.
  unfold get. destruct (decide (k = chr)) as [->|Hk].
  - rewrite lookup_insert_eq. by eexists.
  - rewrite lookup_insert_ne by done.
    destruct (m !! chr) as [d'|]; [by eexists|].
    unfold inherited. destruct (decide (k = "__proto__")) as [->|Hp].
    + rewrite lookup_insert_eq.
      destruct (m !! "__proto__"); case_bool_decide; (by eexists) || done.
    + by rewrite lookup_insert_ne.
Qed.

Lemma start_call_cache chr w w1 o :
  start_call chr w = (w1, o) → cache w1 = cache w.
Proof.
  unfold start_call, cache.
  destruct (get (loadedChromosomes (service w)) chr); intros [= <- <-]; done.
Qed.

(** A step leaves the cache as it is, or adds the object it fetched. *)
Lemma step_cache w e w1 o :
  step w e = (w1, o) →
  (cache w1 = cache w ∧ ∀ c d, o ≠ Fetched c d)
  ∨ ∃ c d, o = Fetched c d ∧ cache w1 = <[c := d]> (cache w).
Proof.
  destruct e as [c|k response]; simpl.
  - intros Hs. left. split; [by eapply start_call_cache|].
    unfold start_call in Hs.
    destruct (get (loadedChromosomes (service w)) c); by injection Hs as <- <-.
  - destruct (inflight w !! k) as [c|]; [|intros [= <- <-]; by left].
    unfold resume_call, cache.
    destruct (response ≫= buildDetails) as [d|]; intros [= <- <-]; simpl.
    + right. by eexists _, _.
    + by left.
Qed.

Lemma step_cache_not_stored w e w1 o chr :
  step w e = (w1, o) → stored chr o = false → cache w1 !! chr = cache w !! chr.
Proof.
  intros Hs Hst. destruct (step_cache _ _ _ _ Hs) as [[-> _]|(c & d & -> & ->)];
    [done|].
  simpl in Hst. apply bool_decide_eq_false in Hst. by rewrite lookup_insert_ne.
Qed.

Lemma step_cache_fetched w e w1 chr d :
  step w e = (w1, Fetched chr d) → cache w1 !! chr = Some d.
Proof.
  intros Hs. destruct (step_cache _ _ _ _ Hs) as [[_ Hno]|(c & d' & Heq & ->)].
  - by destruct (Hno chr d).
  - injection Heq as <- <-. by rewrite lookup_insert_eq.
Qed.

Lemma step_cache_hit w e w1 chr found :
  step w e = (w1, Hit chr found) → w1 = w ∧ get (cache w) chr = Some found.
Proof.
  destruct e as [c|k response]; simpl.
  - unfold start_call, cache.
    destruct (get (loadedChromosomes (service w)) c) eqn:E; intros [= ];
      subst; done.
  - destruct (inflight w !! k) as [c|]; [|done].
    unfold resume_call.
    destruct (response ≫= buildDetails) as [d'|]; done.
Qed.

(** What a completed fetch was: the settlement of a suspended call for the
    chromosome, with a document from which the details were built. *)
Lemma step_fetched w e w1 chr d :
  step w e = (w1, Fetched chr d) →
  ∃ k data, e = Settle k (Some data)
            ∧ inflight w !! k = Some chr
            ∧ buildDetails data = Some (val d)
            ∧ oid d = nextOid w.
Proof.
  destruct e as [c|k response]; simpl.
  - unfold start_call.
    by destruct (get (loadedChromosomes (service w)) c).
  - destruct (inflight w !! k) as [c|] eqn:Hk; [|done].
    unfold resume_call.
    destruct response as [data|]; simpl; [|done].
    destruct (buildDetails data) as [d'|] eqn:Hb; [|done].
    intros [= _ <- <-]. by exists k, data.
Qed.

Lemma hasChromosome_get chr w :
  hasChromosome chr (service w) = true ↔ is_Some (get (cache w) chr).
Proof.
  unfold hasChromosome, cache.
  destruct (get (loadedChromosomes (service w)) chr); split; intros Hs;
    try done; try (by eexists); try (by destruct Hs).
Qed.

Lemma step_hasChromosome_mono w e w1 o chr :
  step w e = (w1, o) → hasChromosome chr (service w) = true →
  hasChromosome chr (service w1) = true.
Proof.
  intros Hs Hhas. apply hasChromosome_get. apply hasChromosome_get in Hhas.
  destruct (step_cache _ _ _ _ Hs) as [[-> _]|(c & d & _ & ->)]; [done|].
  by apply get_is_Some_insert.
Qed.


Lemma run_cons w e evs :
  run w (e :: evs) =
    ((run (step w e).1 evs).1, (step w e).2 :: (run (step w e).1 evs).2).
Proof.
  simpl. destruct (step w e) as [w1 o]. simpl. by destruct (run w1 evs).
Qed.

Lemma run_hasChromosome_mono w evs chr :
  hasChromosome chr (service w) = true →
  hasChromosome chr (service (run w evs).1) = true.
Proof.
  revert w. induction evs as [|e evs IH]; intros w Hhas; [done|].
  rewrite run_cons. simpl. apply IH.
  apply (step_hasChromosome_mono w e _ (step w e).2); [|done].
  by destruct (step w e).
Qed.


(** The runs of a new service stay in the states of [plain]. *)
Lemma step_plain w e w1 o : plain w → step w e = (w1, o) → plain w1.
Proof.
  intros [Hnames Hcalls] Hs. split.
  - intros c Hc.
    destruct (step_cache _ _ _ _ Hs) as [[-> _]|(c' & d & -> & ->)];
      [by apply Hnames|].
    apply step_fetched in Hs as (k & data & _ & Hk & _).
    rewrite lookup_insert_ne; [by apply Hnames|].
    intros ->. by apply (Forall_lookup_1 _ _ _ _ Hcalls Hk).
  - destruct e as [c|k response]; simpl in Hs.
    + unfold start_call in Hs. fold (cache w) in Hs.
      rewrite (get_plain _ _ Hnames) in Hs.
      case_bool_decide as Hc; [by injection Hs as <- _|].
      destruct (cache w !! c); injection Hs as <- _; [done|]. simpl.
      apply Forall_app. split; [done|]. by apply Forall_singleton.
    + destruct (inflight w !! k) as [c|] eqn:Hk; [|by injection Hs as <- _].
      assert (Forall (λ c, c ∉ objectPrototypeNames) (delete k (inflight w)))
        as Hdel by (by apply Forall_delete).
      unfold resume_call in Hs.
      by destruct (response ≫= buildDetails); injection Hs as <- _.
Qed.


Lemma run_plain w evs : plain w → plain (run w evs).1.
Proof.
  revert w. induction evs as [|e evs IH]; intros w Hw; [done|].
  rewrite run_cons. simpl. apply IH.
  apply (step_plain w e _ (step w e).2); [done|by destruct (step w e)].
Qed.





(** From such a state, a successful call for a name of [Object.prototype]
    has found the inherited property, and a successful call for another
    name resolves to details. *)
Lemma step_succeeded_plain w e w1 o chr :
  plain w → step w e = (w1, o) → succeeded chr o = true →
  (chr ∈ objectPrototypeNames ∧ o = Hit chr (ObjectPrototypeProperty chr))
  ∨ ((chr ∉ objectPrototypeNames)
     ∧ ∃ details, resolved o = Some (chr, details)).
Proof.
  intros [Hnames Hcalls] Hs Hsucc.
  destruct o as [c found|c|c d|c|]; try done; simpl in Hsucc;
    apply bool_decide_eq_true in Hsucc; subst c.
  - apply step_cache_hit in Hs as [_ Hget].
    rewrite (get_plain _ _ Hnames) in Hget. case_bool_decide as Hchr.
    + left. by injection Hget as <-.
    + right. split; [done|]. destruct (cache w !! chr) as [d|]; [|done].
      injection Hget as <-. by exists d.
  - right. apply step_fetched in Hs as (k & data & _ & Hk & _).
    split; [exact (Forall_lookup_1 _ _ _ _ Hcalls Hk)|]. by exists d.
Qed.






End ServiceFacts.






Section ReferenceStability.
Import GenomeModelService.
Context `{ChromosomeIntervalClass}.

Implicit Types (w : World) (e : event) (o : outcome) (chr : string).

Lemma step_cache_resolved w e w1 o chr details :
  step w e = (w1, o) → resolved o = Some (chr, details) →
  cache w1 !! chr = Some details.
Proof.
  intros Hs Hr. destruct o as [c found|c|c d|c|]; try done.
  - destruct found; try done. simpl in Hr. injection Hr as -> ->.
    apply step_cache_hit in Hs as [-> Hget]. by apply get_Details.
  - simpl in Hr. injection Hr as -> ->. by apply step_cache_fetched in Hs.
Qed.

Lemma run_cache_not_stored w evs chr :
  existsb (stored chr) (run w evs).2 = false →
  cache (run w evs).1 !! chr = cache w !! chr.
Proof.
  revert w. induction evs as [|e evs IH]; intros w; [done|].
  rewrite run_cons. simpl. intros [H1 H2]%orb_false_iff.
  rewrite IH by done.
  by apply (step_cache_not_stored w e _ (step w e).2); [destruct (step w e)|].
Qed.

Lemma step_settled w e w1 o chr :
  settled chr w → step w e = (w1, o) →
  settled chr w1 ∧ stored chr o = false.
Proof.
  intros [Hc Hin]. destruct e as [c|k response]; simpl.
  - unfold start_call. fold (cache w).
    destruct (get (cache w) c) eqn:E; intros [= <- <-]; [done|].
    split; [|done]. split; [done|]. simpl.
    rewrite elem_of_app, list_elem_of_singleton.
    intros [?| ->]; [done|]. destruct Hc as [d Hd].
    apply get_Details in Hd. congruence.
  - destruct (inflight w !! k) as [c|] eqn:Ek; [|by intros [= <- <-]].
    assert (c ≠ chr) as Hne.
    { intros ->. apply Hin. by eapply list_elem_of_lookup_2. }
    assert (chr ∉ delete k (inflight w)) as Hdel.
    { intros Hd. apply Hin. by eapply list_elem_of_delete_inv. }
    unfold resume_call.
    destruct (response ≫= buildDetails) as [d|]; intros [= <- <-]; simpl.
    + split; [|by apply bool_decide_eq_false]. split; [|done].
      unfold cache. simpl. rewrite lookup_insert_ne by done. apply Hc.
    + done.
Qed.

Lemma run_settled w evs chr :
  settled chr w → existsb (stored chr) (run w evs).2 = false.
Proof.
  revert w. induction evs as [|e evs IH]; intros w Hw; [done|].
  rewrite run_cons. simpl.
  destruct (step_settled w e (step w e).1 (step w e).2 chr Hw) as [H1 H2];
    [by destruct (step w e)|].
  rewrite H2. simpl. by apply IH.
Qed.

Lemma returned_details o chr details :
  returned o = Some (chr, Details details) → resolved o = Some (chr, details).
Proof.
  destruct o as [c found|c|c d|c|]; try done; simpl.
  - by intros [= -> ->].
  - by intros [= -> ->].
Qed.

Lemma returned_succeeded o chr found :
  returned o = Some (chr, found) → succeeded chr o = true.
Proof.
  destruct o as [c f|c|c d|c|]; try done; simpl; intros [= -> _];
    by apply bool_decide_eq_true.
Qed.

Lemma loadChromosome_after_details w e w1 o chr details evs :
  step w e = (w1, o) →
  resolved o = Some (chr, details) →
  existsb (stored chr) (run w1 evs).2 = false ∨ chr ∉ inflight w1 →
  loadChromosome chr (service (run w1 evs).1)
    = (Return (Details details), service (run w1 evs).1).
Proof.
  intros Hs Hr Hquiet.
  pose proof (step_cache_resolved _ _ _ _ _ _ Hs Hr) as Hc.
  assert (existsb (stored chr) (run w1 evs).2 = false) as Hns.
  { destruct Hquiet as [?|Hin]; [done|]. apply run_settled.
    split; [by rewrite Hc|done]. }
  apply (run_cache_not_stored w1 evs chr) in Hns.
  rewrite <- Hns in Hc. apply get_Details in Hc.
  unfold loadChromosome. unfold cache in Hc. by rewrite Hc.
Qed.

(** C7, amended: after a successful [loadChromosomeAsync(chr)],
    [loadChromosome(chr)] returns the very object that the call resolved
    to, as long as no other call for [chr] that was suspended on its fetch
    has completed and replaced the entry in between; this cannot happen
    when no call for [chr] is suspended at the time the call completes.
    The call resolved to details, in any state of the service, or to
    whatever it found, in the states of the runs of a new service. *)
Theorem loadChromosome_returns_resolved_object w e w1 o chr found evs :
  step w e = (w1, o) →
  returned o = Some (chr, found) →
  (∃ details, found = Details details) ∨ plain w →
  existsb (stored chr) (run w1 evs).2 = false ∨ chr ∉ inflight w1 →
  loadChromosome chr (service (run w1 evs).1)
    = (Return found, service (run w1 evs).1).
Proof.
  intros Hs Hr Hkind Hquiet.
  destruct Hkind as [[details ->]|Hw].
  { apply returned_details in Hr. by eapply loadChromosome_after_details. }
  destruct (step_succeeded_plain w e w1 o chr Hw Hs)
    as [[Hchr ->]|[_ [details Hd]]]; [by eapply returned_succeeded| |].
  - simpl in Hr. injection Hr as <-.
    assert (plain (run w1 evs).1) as [Hnames _]
      by (by eapply run_plain, step_plain).
    unfold loadChromosome. fold (cache (run w1 evs).1).
    by rewrite (get_plain _ _ Hnames), bool_decide_eq_true_2.
  - assert (found = Details details) as ->.
    { destruct o as [c f|c|c d|c|]; try done; simpl in Hr, Hd.
      - destruct f; try done. congruence.
      - congruence. }
    by eapply loadChromosome_after_details.
Qed.

(** Allocation: a fetched object is a new one, different from every object
    in the cache; an overlapping call that completes therefore always
    replaces the entry by another reference. *)
Lemma step_oids_below w e w1 o :
  oids_below w → step w e = (w1, o) → oids_below w1.
Proof.
  intros Inv Hs c' d'.
  destruct (step_cache _ _ _ _ Hs) as [[-> _]|(c & d & -> & ->)].
  - intros Hd. apply Inv in Hd.
    assert (nextOid w ≤ nextOid w1)%nat; [|lia].
    destruct e as [c|k response]; simpl in Hs.
    + unfold start_call in Hs.
      destruct (get (loadedChromosomes (service w)) c);
        by injection Hs as <- _.
    + destruct (inflight w !! k) as [c|]; [|by injection Hs as <- _].
      unfold resume_call in Hs.
      destruct (response ≫= buildDetails); injection Hs as <- _; simpl; lia.
  - apply step_fetched in Hs as Hf.
    destruct Hf as (k & data & -> & Hk & _ & Hoid).
    simpl in Hs. rewrite Hk in Hs. unfold resume_call in Hs.
    destruct (Some data ≫= buildDetails); [|done].
    injection Hs as <- _. simpl.
    rewrite lookup_insert. case_decide.
    + intros [= <-]. lia.
    + intros Hd. apply Inv in Hd. lia.
Qed.

Lemma run_oids_below w evs : oids_below w → oids_below (run w evs).1.
Proof.
  revert w. induction evs as [|e evs IH]; intros w Inv; [done|].
  rewrite run_cons. simpl. apply IH.
  apply (step_oids_below w e _ (step w e).2); [done|by destruct (step w e)].
Qed.

Lemma fetched_is_a_new_object w e w1 chr d c d' :
  oids_below w → step w e = (w1, Fetched chr d) →
  cache w !! c = Some d' → ¬ same_ref d d'.
Proof.
  intros Inv Hs Hc.
  apply step_fetched in Hs as (k & data & _ & _ & _ & Hoid).
  unfold same_ref. apply Inv in Hc. lia.
Qed.

(** An awaited call is the cache test followed, on a miss, by the rest of
    the call in the same world. *)
Lemma loadChromosomeAsync_awaited chr response w :
  loadChromosomeAsync chr response w =
    match get (cache w) chr with
    | Some found => (w, Hit chr found)
    | None => resume_call chr response w
    end.
Proof.
  unfold loadChromosomeAsync, start_call, cache.
  destruct (get (loadedChromosomes (service w)) chr); [done|].
  simpl. rewrite length_app. simpl.
  replace (length (inflight w) + 1 - 1)%nat with (length (inflight w)) by lia.
  rewrite lookup_app_r, Nat.sub_diag by lia. simpl.
  replace (delete (length (inflight w)) (inflight w ++ [chr]))
    with (inflight w); [by destruct w|].
  induction (inflight w) as [|c l IH]; [done|]. simpl. by f_equal.
Qed.

End ReferenceStability.

Section ReferenceStabilityOnSamples.
Import GenomeModelService.

Lemma loadChromosome_returns_resolved_object_witness :
  ∃ w1 details,
    step (run init [Call "chr1"]).1 (Settle 0 (Some Samples.chr1_data))
      = (w1, Fetched "chr1" details)
    ∧ loadChromosome "chr1" (service (run w1 [Call "chr2"; Call "chr1"]).1)
      = (Return (Details details),
         service (run w1 [Call "chr2"; Call "chr1"]).1).
Proof.
  eexists _, _. split; [vm_compute; reflexivity|].
  eapply (loadChromosome_returns_resolved_object
            (run init [Call "chr1"]).1 (Settle 0 (Some Samples.chr1_data))).
  - vm_compute. reflexivity.
  - reflexivity.
  - left. by eexists.
  - left. vm_compute. reflexivity.
Defined.

(** C7 as stated fails: two overlapping calls for the same chromosome both
    fetch; the first resolves to an object that the second replaces by
    another one, with the same fields. *)
Lemma overlapping_calls_replace_the_object :
  ∃ first second,
    (run init Samples.overlapping).2
      = [Suspended "chr1"; Suspended "chr1";
         Fetched "chr1" first; Fetched "chr1" second]
    ∧ (loadChromosome "chr1" (service (run init Samples.overlapping).1)).1
      = Return (Details second)
    ∧ ¬ same_ref second first
    ∧ val second = val first.
Proof.
  eexists _, _. split; [vm_compute; reflexivity|].
  split; [vm_compute; reflexivity|]. split; [|reflexivity].
  unfold same_ref. simpl. lia.
Qed.

End ReferenceStabilityOnSamples.

Section Provenance.
Import JsNumber GenomeModelService.
Context `{ChromosomeIntervalClass}.

Implicit Types (w : World) (e : event) (o : outcome) (chr : string).





Lemma buildDetails_scales data d :
  buildDetails data = Some d →
  ∃ xyzPositions,
    data_xyzPositions data = Some xyzPositions
    ∧ mapM (fmap THREE.Vector3_new) xyzPositions = Some (positions d)
    ∧ let box := boundingBoxOf (positions d) in
      boundingBox d = box
      ∧ D3.domain (x d) = (THREE.x (THREE.min box), THREE.x (THREE.max box))
      ∧ D3.domain (y d) = (THREE.y (THREE.min box), THREE.y (THREE.max box))
      ∧ D3.domain (z d) = (THREE.z (THREE.min box), THREE.z (THREE.max box))
      ∧ D3.range (x d) = (zero, div (xLen box) (largestLen box))
      ∧ D3.range (y d) = (zero, div (yLen box) (largestLen box))
      ∧ D3.range (z d) = (zero, div (zLen box) (largestLen box)).
Proof.
  unfold buildDetails.
  destruct (data_xyzPositions data) as [xyz|]; [|done]. simpl.
  destruct (mapM (fmap THREE.Vector3_new) xyz) as [ps|] eqn:Hps; [|done].
  simpl.
  destruct (data_genomicCoords data) as [gc|]; [|done]. simpl.
  destruct (mapM id gc) as [coords|]; [|done]. simpl.
  destruct (head coords) as [first|]; [|done]. simpl.
  destruct (last coords) as [final|]; [|done]. simpl.
  destruct (ChromosomeInterval_new "chr21" first.1 final.2) as [iv|];
    [|done]. simpl.
  intros [= <-]. simpl. by exists xyz.
Qed.




End Provenance.

Section ProvenanceOnSamples.
Import JsNumber GenomeModelService.





End ProvenanceOnSamples.


(** ** TrackContainer *)

Section Selection.
Import TrackContainer.
Local Open Scope nat_scope.

Implicit Types (tracks : list (Obj TrackModel)) (track : Obj TrackModel).

Lemma setSelected_twice b track :
  setSelected (negb (negb b)) (setSelected (negb b) (val track))
  = setSelected b (val track).
Proof. by rewrite negb_involutive. Qed.

Lemma setSelected_same (t : TrackModel) : setSelected (isSelected t) t = t.
Proof. by destruct t. Qed.

Lemma toggleOneTrack_at tracks index track n :
  tracks !! index = Some track →
  toggleOneTrack tracks index n
  = Some (<[index := MkObj n (setSelected (negb (isSelected (val track)))
                                          (val track))]> tracks, S n).
Proof. intros Ht. unfold toggleOneTrack. by rewrite Ht. Qed.

(** C4: at an index of the collection, toggling the selection twice gives a
    collection whose tracks have the fields of the original ones. *)
Theorem toggle_twice_restores tracks index n :
  index < length tracks →
  ∃ once n1 twice n2,
    toggleOneTrack tracks index n = Some (once, n1)
    ∧ toggleOneTrack once index n1 = Some (twice, n2)
    ∧ val <$> twice = val <$> tracks.
Proof.
  intros Hlt. destruct (lookup_lt_is_Some_2 tracks index Hlt) as [track Ht].
  eexists _, _, _, _. split; [by apply toggleOneTrack_at|].
  split.
  - apply toggleOneTrack_at. by apply list_lookup_insert_eq.
  - simpl. rewrite list_insert_insert_eq, list_fmap_insert. simpl.
    rewrite setSelected_twice, setSelected_same.
    apply list_insert_id. by rewrite list_lookup_fmap, Ht.
Qed.

Lemma toggle_twice_restores_witness :
  ∃ once n1 twice n2,
    toggleOneTrack Samples.two_tracks 0 2 = Some (once, n1)
    ∧ toggleOneTrack once 0 n1 = Some (twice, n2)
    ∧ val <$> twice = val <$> Samples.two_tracks.
Proof. apply (toggle_twice_restores Samples.two_tracks 0 2). simpl. lia. Defined.

End Selection.

Section Clicks.
Import TrackContainer.
Local Open Scope nat_scope.

Implicit Types (tracks : list (Obj TrackModel)) (track : Obj TrackModel).

(** C5: a click on track [index] with the left button and the control key
    held calls [onTracksChanged] with a collection of the same length, in
    which the element at [index] is a new object with the selection flag
    negated and the other fields kept, and every other element is the
    object of the original collection; any other click makes no call. *)
Theorem trackClicked_toggles_the_clicked_track LEFT tracks event index n :
  (button event = LEFT → ctrlKey event = true →
   ∀ track, tracks !! index = Some track →
     ∃ next copy,
       trackClicked LEFT tracks event index n = Some (Some next, S n)
       ∧ length next = length tracks
       ∧ next !! index = Some copy
       ∧ oid copy = n
       ∧ isSelected (val copy) = negb (isSelected (val track))
       ∧ trackId (val copy) = trackId (val track)
       ∧ options (val copy) = options (val track)
       ∧ ∀ j, j ≠ index → next !! j = tracks !! j)
  ∧ (button event ≠ LEFT ∨ ctrlKey event = false →
     trackClicked LEFT tracks event index n = Some (None, n)).
Proof.
  split.
  - intros Hb Hc track Ht. unfold trackClicked.
    rewrite bool_decide_eq_true_2, Hc by done. simpl.
    unfold bind. rewrite (toggleOneTrack_at _ _ _ _ Ht).
    eexists _, _. split; [done|].
    split; [by rewrite length_insert|].
    split; [apply list_lookup_insert_eq; by eapply lookup_lt_Some|].
    repeat (split; [done|]).
    intros j Hj. by apply list_lookup_insert_ne.
  - intros Hno. unfold trackClicked.
    destruct Hno as [Hb|Hc].
    + by rewrite bool_decide_eq_false_2.
    + by rewrite Hc, andb_false_r.
Qed.

Lemma trackClicked_toggles_the_clicked_track_witness :
  (∃ next copy,
     trackClicked 0 Samples.two_tracks Samples.ctrl_left_click 0 2
       = Some (Some next, 3)
     ∧ next !! 0 = Some copy
     ∧ isSelected (val copy) = true
     ∧ next !! 1 = Samples.two_tracks !! 1)
  ∧ trackClicked 0 Samples.two_tracks (MkMouseEvent 0 false) 0 2
    = Some (None, 2).
Proof.
  destruct (trackClicked_toggles_the_clicked_track
              0%Z Samples.two_tracks Samples.ctrl_left_click 0 2) as [Hyes _].
  destruct (trackClicked_toggles_the_clicked_track
              0%Z Samples.two_tracks (MkMouseEvent 0 false) 0 2) as [_ Hno].
  split.
  - destruct (Hyes eq_refl eq_refl _ eq_refl)
      as (next & copy & Hemit & _ & Hat & _ & Hsel & _ & _ & Hothers).
    exists next, copy. repeat split; try done. apply Hothers. lia.
  - apply Hno. by right.
Defined.

Lemma mapM_cons {A B} (f : A → M B) a l n :
  mapM f (a :: l) n =
    match f a n with
    | Some (b, n1) =>
        match mapM f l n1 with
        | Some (bs, n2) => Some (b :: bs, n2)
        | None => None
        end
    | None => None
    end.
Proof.
  simpl. unfold bind. destruct (f a n) as [[b n1]|]; [|done].
  by destruct (mapM f l n1) as [[bs n2]|].
Qed.

Lemma deselect_deselected track n :
  ∃ track' n', deselect track n = Some (track', n') ∧ deselected track track'.
Proof.
  unfold deselect. destruct (isSelected (val track)) eqn:Hsel.
  - by eexists _, _.
  - by eexists _, _.
Qed.

Lemma deselectAllTracks_Forall2 tracks n :
  ∃ next n', deselectAllTracks tracks n = Some (next, n')
             ∧ Forall2 deselected tracks next.
Proof.
  unfold deselectAllTracks. revert n.
  induction tracks as [|track tracks IH]; intros n.
  - eexists _, _. split; [done|]. constructor.
  - rewrite mapM_cons.
    destruct (deselect_deselected track n) as (track' & n1 & -> & Hd).
    destruct (IH n1) as (next & n2 & -> & Hall).
    eexists _, _. split; [done|]. by constructor.
Qed.

Lemma none_selected_Forall2 tracks :
  existsb (λ track, isSelected (val track)) tracks = false →
  Forall2 deselected tracks tracks.
Proof.
  induction tracks as [|track tracks IH]; simpl; [constructor|].
  intros [H1 H2]%orb_false_iff. constructor; [done|auto].
Qed.

(** C6: after a click outside the tracks, the collection has the length
    and the order it had, no track of it is selected, and the other fields
    of every track are those it had.  The handler calls [onTracksChanged]
    with that collection when some track was selected, and makes no call
    when none was. *)
Theorem outside_click_deselects_all tracks event n :
  ∃ emitted n',
    handleOutsideClick tracks event n = Some (emitted, n')
    ∧ (emitted = None ↔
       existsb (λ track, isSelected (val track)) tracks = false)
    ∧ length (tracksAfter tracks emitted) = length tracks
    ∧ ∀ j track, tracks !! j = Some track →
        ∃ track', tracksAfter tracks emitted !! j = Some track'
                  ∧ isSelected (val track') = false
                  ∧ trackId (val track') = trackId (val track)
                  ∧ options (val track') = options (val track).
Proof.
  unfold handleOutsideClick.
  assert (∃ emitted n',
    (if existsb (λ track, isSelected (val track)) tracks
     then do nextTracks <- deselectAllTracks tracks; ret (Some nextTracks)
     else ret None) n = Some (emitted, n')
    ∧ (emitted = None ↔
       existsb (λ track, isSelected (val track)) tracks = false)
    ∧ Forall2 deselected tracks (tracksAfter tracks emitted))
    as (emitted & n' & Hrun & Hnone & Hall).
  { destruct (existsb _ tracks) eqn:Hsome.
    - unfold bind.
      destruct (deselectAllTracks_Forall2 tracks n) as (next & n' & -> & Hall).
      by eexists _, _.
    - eexists _, _. split; [done|]. split; [done|].
      by apply none_selected_Forall2. }
  exists emitted, n'. split; [done|]. split; [done|].
  split; [symmetry; by eapply Forall2_length|].
  intros j track Ht.
  destruct (Forall2_lookup_l _ _ _ _ _ Hall Ht) as (track' & Ht' & Hd).
  exists track'. by destruct Hd as (? & ? & ?).
Qed.

End Clicks.

(** ** GenomeNavigator *)

Section MinimumWidth.
Import GenomeNavigator.

Variable MIN : Qc.
Context {R : Type} `{DisplayedRegionModel.Methods R}.

Implicit Types (this : State R) (m : method).

Lemma _setModelState_rejects m this :
  JsNumber.lt (DisplayedRegionModel.getWidth (apply m (viewRegion this)))
              (JsNumber.Fin MIN) = true →
  _setModelState MIN m this = this.
Proof. intros Hlt. unfold _setModelState. by rewrite Hlt. Qed.

Lemma _setModelState_accepts m this :
  JsNumber.lt (DisplayedRegionModel.getWidth (apply m (viewRegion this)))
              (JsNumber.Fin MIN) = false →
  _setModelState MIN m this = MkState (apply m (viewRegion this)).
Proof. intros Hlt. unfold _setModelState. by rewrite Hlt. Qed.

Lemma _setModelState_not_below m this :
  JsNumber.lt (shownWidth this) (JsNumber.Fin MIN) = false →
  JsNumber.lt (shownWidth (_setModelState MIN m this)) (JsNumber.Fin MIN)
  = false.
Proof.
  intros Hnot. unfold _setModelState.
  destruct (JsNumber.lt
              (DisplayedRegionModel.getWidth (apply m (viewRegion this)))
              (JsNumber.Fin MIN)) eqn:Hlt; done.
Qed.

Lemma not_lt_le (a : JsNumber.number) :
  a ≠ JsNumber.NaN → JsNumber.lt a (JsNumber.Fin MIN) = false →
  JsNumber.le (JsNumber.Fin MIN) a.
Proof.
  destruct a as [| |p|]; try done. simpl. unfold JsNumber.Qc_ltb.
  intros _ Hlt. apply bool_decide_eq_false in Hlt. by apply Qcnot_lt_le.
Qed.

Lemma le_not_lt (a : JsNumber.number) :
  JsNumber.le (JsNumber.Fin MIN) a →
  JsNumber.lt a (JsNumber.Fin MIN) = false.
Proof.
  destruct a as [| |p|]; try done. simpl. unfold JsNumber.Qc_ltb.
  intros Hle. apply bool_decide_eq_false. by apply Qcle_not_lt.
Qed.

Lemma _setModelState_keeps_minimum m this :
  (∀ r : R, DisplayedRegionModel.getWidth r ≠ JsNumber.NaN) →
  JsNumber.le (JsNumber.Fin MIN) (shownWidth this) →
  JsNumber.le (JsNumber.Fin MIN) (shownWidth (_setModelState MIN m this)).
Proof.
  intros Hnum Hle. apply not_lt_le; [apply Hnum|].
  by apply _setModelState_not_below, le_not_lt.
Qed.

End MinimumWidth.

Section Zoom.
Import GenomeNavigator.

Implicit Types (this : State DisplayedRegionModel.t) (m : method).

Lemma width_scale factor focalPoint (r : DisplayedRegionModel.t) :
  DisplayedRegionModel.width (DisplayedRegionModel.scale factor focalPoint r)
  = DisplayedRegionModel.width r * factor.
Proof. unfold DisplayedRegionModel.scale, DisplayedRegionModel.width. simpl. ring. Qed.

Lemma there_and_back (width f : Qc) : f ≠ 0 → width * f * (1 / f) = width.
Proof. intros Hf. field. done. Qed.

(** C1, amended: a zoom or a range-set that would make the view region
    narrower than [MIN_VIEW_REGION_SIZE] is discarded and leaves the view
    region as it was; a view region that is at least that wide stays so;
    and zooming such a region by [f] and then by [1/f] restores its width
    when the zoom by [f] is not discarded. *)
Theorem zoom_respects_minimum_width MIN this :
  (∀ m, JsNumber.lt
          (DisplayedRegionModel.getWidth (apply m (viewRegion this)))
          (JsNumber.Fin MIN) = true →
        _setModelState MIN m this = this)
  ∧ (∀ m, JsNumber.le (JsNumber.Fin MIN) (shownWidth this) →
          JsNumber.le (JsNumber.Fin MIN)
            (shownWidth (_setModelState MIN m this)))
  ∧ (∀ f focus1 focus2,
       f ≠ 0 →
       JsNumber.le (JsNumber.Fin MIN) (shownWidth this) →
       MIN ≤ DisplayedRegionModel.width (viewRegion this) * f →
       shownWidth (zoom MIN (1 / f) focus2 (zoom MIN f focus1 this))
       = shownWidth this).
Proof.
  split; [intros m; apply _setModelState_rejects|].
  split; [intros m; by apply _setModelState_keeps_minimum|].
  intros f focus1 focus2 Hf Hmin Hzoomed. unfold zoom, shownWidth in *.
  simpl in Hmin.
  rewrite (_setModelState_accepts MIN (zoom_ f focus1) this);
    [|apply le_not_lt; simpl; by rewrite width_scale].
  rewrite (_setModelState_accepts MIN (zoom_ (1 / f) focus2)).
  - simpl. rewrite !width_scale. by rewrite there_and_back.
  - apply le_not_lt. simpl. rewrite !width_scale. by rewrite there_and_back.
Qed.

Lemma zoom_respects_minimum_width_witness :
  shownWidth (zoom Samples.hundred (1 / Qc_of_Z 2) None
                (zoom Samples.hundred (Qc_of_Z 2) None Samples.wide_region))
  = shownWidth Samples.wide_region.
Proof.
  destruct (zoom_respects_minimum_width Samples.hundred Samples.wide_region)
    as (_ & _ & Hback).
  apply Hback.
  - by vm_compute.
  - by vm_compute.
  - by vm_compute.
Defined.

(** C1 as stated fails: with a minimum of 100, zooming a region of width
    200 by 1/4 would give the width 50; the zoom is discarded, the width
    stays 200 and is not held at 100, and zooming by 4 afterwards gives
    800. *)
Lemma discarded_zoom_is_not_clamped :
  JsNumber.lt
    (DisplayedRegionModel.getWidth
       (apply (zoom_ Samples.quarter None) (viewRegion Samples.wide_region)))
    (JsNumber.Fin Samples.hundred) = true
  ∧ zoom Samples.hundred Samples.quarter None Samples.wide_region
    = Samples.wide_region
  ∧ shownWidth (zoom Samples.hundred Samples.quarter None Samples.wide_region)
    ≠ JsNumber.Fin Samples.hundred
  ∧ shownWidth (zoom Samples.hundred (1 / Samples.quarter) None
                  (zoom Samples.hundred Samples.quarter None
                     Samples.wide_region))
    ≠ shownWidth Samples.wide_region.
Proof.
  split; [by vm_compute|]. split; [by vm_compute|].
  split; by vm_compute.
Qed.

End Zoom.


(** ** HicTrackConfig *)

Section Refetch.
Import HicTrackConfig.

Context {NormalizationMode BinSize Other : Type}.
Context `{EqDecision NormalizationMode} `{EqDecision BinSize}.

Implicit Types
  (oldOptions newOptions : TrackOptions NormalizationMode BinSize Other).

Lemma strict_ne_true {A} `{EqDecision A} (a b : A) :
  strict_ne a b = true ↔ a ≠ b.
Proof.
  unfold strict_ne. rewrite negb_true_iff. apply bool_decide_eq_false.
Qed.

(** C10: [shouldFetchBecauseOptionChange] is true exactly when the
    normalizations differ or the bin sizes differ; options that differ
    only in other fields give false. *)
Theorem shouldFetch_iff_normalization_or_binSize oldOptions newOptions :
  (shouldFetchBecauseOptionChange oldOptions newOptions = true ↔
   normalization oldOptions ≠ normalization newOptions
   ∨ binSize oldOptions ≠ binSize newOptions)
  ∧ ∀ others',
      shouldFetchBecauseOptionChange oldOptions
        (MkTrackOptions (normalization oldOptions) (binSize oldOptions)
                        others') = false.
Proof.
  split.
  - unfold shouldFetchBecauseOptionChange.
    by rewrite orb_true_iff, !strict_ne_true.
  - intros others'. unfold shouldFetchBecauseOptionChange, strict_ne. simpl.
    by rewrite !bool_decide_eq_true_2.
Qed.

End Refetch.

(** ** Further properties of TrackContainer *)

Section Reorder.
Import TrackContainer.
Local Open Scope nat_scope.

Implicit Types (tracks : list (Obj TrackModel)) (track : Obj TrackModel).

Lemma relative_start_in_range len (i : Z) :
  (0 ≤ i < Z.of_nat len)%Z → JsArray.relative_start len i = Z.to_nat i.
Proof.
  intros Hi. unfold JsArray.relative_start.
  rewrite bool_decide_eq_false_2 by lia. f_equal. lia.
Qed.

Lemma relative_start_le len (i : Z) : JsArray.relative_start len i ≤ len.
Proof. unfold JsArray.relative_start. case_bool_decide; lia. Qed.

Lemma delete_beyond {A} (l : list A) i : length l ≤ i → delete i l = l.
Proof.
  intros Hi. rewrite delete_take_drop, take_ge, drop_ge by lia.
  by rewrite app_nil_r.
Qed.

Lemma splice_insert {A} (start : Z) (x : A) (l : list A) :
  JsArray.splice start 0 [x] l
  = ([], take (JsArray.relative_start (length l) start) l
         ++ x :: drop (JsArray.relative_start (length l) start) l).
Proof.
  unfold JsArray.splice.
  replace (Z.to_nat (Z.min (Z.max 0 0) _)) with 0 by lia.
  by rewrite Nat.add_0_r.
Qed.

Lemma splice_remove {A} (start : Z) (l : list A) :
  let i := JsArray.relative_start (length l) start in
  JsArray.splice start 1 [] l = (option_list (l !! i), delete i l).
Proof.
  intros i. unfold JsArray.splice. fold i.
  pose proof (relative_start_le (length l) start) as Hle. fold i in Hle.
  destruct (l !! i) as [x|] eqn:Hx.
  - apply lookup_lt_Some in Hx as Hlt.
    replace (Z.to_nat (Z.min (Z.max 1 0) (Z.of_nat (length l - i))))
      with 1 by lia.
    simpl. rewrite delete_take_drop. f_equal; [|by rewrite Nat.add_1_r].
    rewrite <- (take_drop_middle l i x Hx) at 1.
    rewrite drop_app_length'; [done|]. rewrite length_take. lia.
  - apply lookup_ge_None in Hx.
    replace (Z.to_nat (Z.min (Z.max 1 0) (Z.of_nat (length l - i))))
      with 0 by lia.
    simpl. rewrite Nat.add_0_r, take_drop. by rewrite delete_beyond.
Qed.

(** What [requestTrackReorder] emits: the tracks without the one at the
    start index of the first [splice], and that track, or [undefined] when
    there is none, put in at the start index of the second. *)
Lemma requestTrackReorder_eq tracks fromIndex toIndex :
  let i := JsArray.relative_start (length tracks) fromIndex in
  let rest := Some <$> delete i tracks in
  let s := JsArray.relative_start (length rest) toIndex in
  requestTrackReorder tracks fromIndex toIndex
  = take s rest ++ tracks !! i :: drop s rest.
Proof.
  intros i rest s. unfold requestTrackReorder.
  pose proof (splice_remove fromIndex (Some <$> tracks)) as Hrem.
  simpl in Hrem. rewrite length_fmap in Hrem. fold i in Hrem.
  rewrite Hrem. rewrite splice_insert.
  rewrite list_lookup_fmap.
  replace (delete i (Some <$> tracks)) with rest
    by (unfold rest; apply list_fmap_delete).
  fold s. by destruct (tracks !! i).
Qed.

Lemma relative_start_within len (i : Z) :
  (0 ≤ i ≤ Z.of_nat len)%Z → JsArray.relative_start len i = Z.to_nat i.
Proof.
  intros Hi. unfold JsArray.relative_start.
  rewrite bool_decide_eq_false_2 by lia. f_equal. lia.
Qed.

Lemma relative_start_lt len (i : Z) :
  (- Z.of_nat len ≤ i < Z.of_nat len)%Z → JsArray.relative_start len i < len.
Proof. intros Hi. unfold JsArray.relative_start. case_bool_decide; lia. Qed.

Lemma lookup_put_in {A} (l : list A) s x :
  s ≤ length l → (take s l ++ x :: drop s l) !! s = Some x.
Proof.
  intros Hs. rewrite lookup_app_r; rewrite length_take; [|lia].
  by replace (s - s `min` length l) with 0 by lia.
Qed.

Lemma delete_put_in {A} (l : list A) s x :
  s ≤ length l → delete s (take s l ++ x :: drop s l) = l.
Proof.
  intros Hs.
  rewrite <- (take_drop s l) at 3.
  rewrite <- (delete_middle (take s l) (drop s l) x).
  f_equal. rewrite length_take. lia.
Qed.

Lemma put_back {A} (l : list A) i x :
  l !! i = Some x → take i (delete i l) ++ x :: drop i (delete i l) = l.
Proof.
  intros Hx. apply lookup_lt_Some in Hx as Hlt.
  rewrite delete_take_drop.
  rewrite take_app_length', drop_app_length' by (rewrite length_take; lia).
  by apply take_drop_middle.
Qed.

(** With both indices on tracks, the emitted collection is the one without
    the moved track, and the moved track put in at [toIndex]. *)
Lemma requestTrackReorder_in_range tracks fromIndex toIndex track :
  (0 ≤ fromIndex < Z.of_nat (length tracks))%Z →
  (0 ≤ toIndex < Z.of_nat (length tracks))%Z →
  tracks !! Z.to_nat fromIndex = Some track →
  requestTrackReorder tracks fromIndex toIndex
  = Some <$> (take (Z.to_nat toIndex) (delete (Z.to_nat fromIndex) tracks)
              ++ track :: drop (Z.to_nat toIndex)
                               (delete (Z.to_nat fromIndex) tracks)).
Proof.
  intros Hfrom Hto Ht. rewrite requestTrackReorder_eq.
  rewrite (relative_start_in_range (length tracks) fromIndex) by done.
  rewrite Ht.
  assert (length (delete (Z.to_nat fromIndex) tracks) = length tracks - 1)
    as Hlen by (apply length_delete; eauto).
  rewrite relative_start_within by (rewrite length_fmap, Hlen; lia).
  rewrite fmap_app. csimpl. by rewrite fmap_take, fmap_drop.
Qed.

(** X1: when [fromIndex] denotes a track, counting from the end if it is
    negative, the emitted collection holds the very tracks of the original
    one, each once, whatever [toIndex] is. *)
Theorem requestTrackReorder_permutes tracks fromIndex toIndex :
  (- Z.of_nat (length tracks) ≤ fromIndex < Z.of_nat (length tracks))%Z →
  ∃ next, requestTrackReorder tracks fromIndex toIndex = Some <$> next
          ∧ next ≡ₚ tracks.
Proof.
  intros Hfrom. rewrite requestTrackReorder_eq.
  pose proof (relative_start_lt _ _ Hfrom) as Hlt.
  destruct (lookup_lt_is_Some_2 tracks _ Hlt) as [track Ht]. rewrite Ht.
  eexists (take _ (delete _ tracks) ++ track :: drop _ (delete _ tracks)).
  split.
  - rewrite fmap_app. csimpl. rewrite fmap_take, fmap_drop. reflexivity.
  - rewrite <- Permutation_middle, take_drop.
    symmetry. by apply delete_Permutation.
Qed.

Lemma requestTrackReorder_permutes_witness :
  ∃ next, requestTrackReorder Samples.three_tracks (-1) 0 = Some <$> next
          ∧ next ≡ₚ Samples.three_tracks.
Proof.
  apply (requestTrackReorder_permutes Samples.three_tracks (-1) 0).
  simpl. lia.
Defined.

(** X2: with both indices on tracks, the track at [fromIndex] is at
    [toIndex] in the emitted collection, and the other tracks follow in the
    order they had. *)
Theorem requestTrackReorder_moves tracks fromIndex toIndex track :
  (0 ≤ fromIndex < Z.of_nat (length tracks))%Z →
  (0 ≤ toIndex < Z.of_nat (length tracks))%Z →
  tracks !! Z.to_nat fromIndex = Some track →
  requestTrackReorder tracks fromIndex toIndex !! Z.to_nat toIndex
  = Some (Some track)
  ∧ delete (Z.to_nat toIndex) (requestTrackReorder tracks fromIndex toIndex)
    = Some <$> delete (Z.to_nat fromIndex) tracks.
Proof.
  intros Hfrom Hto Ht.
  rewrite (requestTrackReorder_in_range _ _ _ _ Hfrom Hto Ht).
  assert (Z.to_nat toIndex ≤ length (delete (Z.to_nat fromIndex) tracks))
    as Hle.
  { rewrite length_delete by eauto. lia. }
  split.
  - rewrite list_lookup_fmap, lookup_put_in by done. done.
  - rewrite <- list_fmap_delete. by rewrite delete_put_in.
Qed.

Lemma requestTrackReorder_moves_witness :
  requestTrackReorder Samples.three_tracks 0 2 !! 2
  = Some (Samples.three_tracks !! 0)
  ∧ delete 2 (requestTrackReorder Samples.three_tracks 0 2)
    = Some <$> delete 0 Samples.three_tracks.
Proof.
  apply (requestTrackReorder_moves Samples.three_tracks 0 2);
    [simpl; lia|simpl; lia|reflexivity].
Defined.

(** X3: with both indices on tracks, moving a track from [fromIndex] to
    [toIndex] and then, in the emitted collection, from [toIndex] to
    [fromIndex] gives the original collection. *)
Theorem requestTrackReorder_round_trip tracks fromIndex toIndex next :
  (0 ≤ fromIndex < Z.of_nat (length tracks))%Z →
  (0 ≤ toIndex < Z.of_nat (length tracks))%Z →
  requestTrackReorder tracks fromIndex toIndex = Some <$> next →
  requestTrackReorder next toIndex fromIndex = Some <$> tracks.
Proof.
  intros Hfrom Hto Hnext.
  destruct (lookup_lt_is_Some_2 tracks (Z.to_nat fromIndex)) as [track Ht];
    [lia|].
  rewrite (requestTrackReorder_in_range _ _ _ _ Hfrom Hto Ht) in Hnext.
  apply (inj (fmap Some)) in Hnext. subst next.
  assert (Z.to_nat toIndex ≤ length (delete (Z.to_nat fromIndex) tracks))
    as Hle.
  { rewrite length_delete by eauto. lia. }
  assert (length (take (Z.to_nat toIndex) (delete (Z.to_nat fromIndex) tracks)
                  ++ track :: drop (Z.to_nat toIndex)
                                   (delete (Z.to_nat fromIndex) tracks))
          = length tracks) as Hlen.
  { rewrite length_app. simpl. rewrite length_take, length_drop.
    rewrite length_delete by eauto. lia. }
  rewrite (requestTrackReorder_in_range _ toIndex fromIndex track);
    [|by rewrite Hlen|by rewrite Hlen|by apply lookup_put_in].
  by rewrite delete_put_in, put_back.
Qed.

Lemma requestTrackReorder_round_trip_witness :
  ∃ next, requestTrackReorder Samples.three_tracks 0 2 = Some <$> next
          ∧ requestTrackReorder next 2 0 = Some <$> Samples.three_tracks.
Proof.
  exists (drop 1 Samples.three_tracks ++ take 1 Samples.three_tracks).
  split; [reflexivity|].
  apply (requestTrackReorder_round_trip Samples.three_tracks 0 2);
    [simpl; lia|simpl; lia|reflexivity].
Defined.

(** X4: when [fromIndex] is at or beyond the end of the collection, no
    track is taken out, and the emitted collection is the original one with
    one more element, [undefined], at the start index of [toIndex]. *)
Theorem requestTrackReorder_beyond_the_end tracks fromIndex toIndex :
  (Z.of_nat (length tracks) ≤ fromIndex)%Z →
  let s := JsArray.relative_start (length tracks) toIndex in
  length (requestTrackReorder tracks fromIndex toIndex) = S (length tracks)
  ∧ requestTrackReorder tracks fromIndex toIndex !! s = Some None
  ∧ delete s (requestTrackReorder tracks fromIndex toIndex) = Some <$> tracks.
Proof.
  intros Hfrom s. rewrite requestTrackReorder_eq.
  assert (JsArray.relative_start (length tracks) fromIndex = length tracks)
    as ->.
  { unfold JsArray.relative_start. rewrite bool_decide_eq_false_2 by lia. lia. }
  rewrite delete_beyond, lookup_ge_None_2 by lia.
  rewrite length_fmap. fold s.
  pose proof (relative_start_le (length tracks) toIndex) as Hs. fold s in Hs.
  split; [|split].
  - rewrite length_app. simpl. rewrite length_take, length_drop, length_fmap. lia.
  - apply lookup_put_in. by rewrite length_fmap.
  - apply delete_put_in. by rewrite length_fmap.
Qed.

Lemma requestTrackReorder_beyond_the_end_witness :
  length (requestTrackReorder Samples.three_tracks 5 1) = 4
  ∧ requestTrackReorder Samples.three_tracks 5 1 !! 1 = Some None
  ∧ delete 1 (requestTrackReorder Samples.three_tracks 5 1)
    = Some <$> Samples.three_tracks.
Proof.
  apply (requestTrackReorder_beyond_the_end Samples.three_tracks 5 1).
  simpl. lia.
Defined.

End Reorder.

Section ContextMenu.
Import TrackContainer.
Local Open Scope nat_scope.

Implicit Types (tracks : list (Obj TrackModel)) (track : Obj TrackModel).

(** A context-menu event without the control key on a track that is not
    selected: the emitted collection, position by position. *)
Lemma handleContextMenuEvent_unselected LEFT tracks event index track n :
  ctrlKey event = false →
  tracks !! index = Some track →
  isSelected (val track) = false →
  ∃ next n',
    handleContextMenuEvent LEFT tracks event index n = Some (Some next, n')
    ∧ length next = length tracks
    ∧ ∀ j t, tracks !! j = Some t →
        ∃ t', next !! j = Some t'
              ∧ isSelected (val t') = bool_decide (j = index)
              ∧ trackId (val t') = trackId (val t)
              ∧ options (val t') = options (val t).
Proof.
  intros Hctrl Ht Hsel. unfold handleContextMenuEvent.
  rewrite Hctrl, Ht, Hsel. simpl. unfold bind.
  destruct (deselectAllTracks_Forall2 tracks n) as (mid & n1 & -> & Hall).
  destruct (Forall2_lookup_l _ _ _ _ _ Hall Ht) as (t0 & Ht0 & Hs0 & Hi0 & Ho0).
  rewrite (toggleOneTrack_at _ _ _ _ Ht0). unfold ret.
  eexists _, _. split; [done|]. split.
  - rewrite length_insert. symmetry. by eapply Forall2_length.
  - intros j t Hj. destruct (decide (j = index)) as [->|Hne].
    + rewrite list_lookup_insert_eq by (by eapply lookup_lt_Some).
      eexists. split; [done|]. simpl. rewrite Hs0.
      rewrite bool_decide_eq_true_2 by done. by simplify_eq.
    + rewrite list_lookup_insert_ne by done.
      destruct (Forall2_lookup_l _ _ _ _ _ Hall Hj) as (t' & Ht' & Hs & Hi & Ho).
      exists t'. by rewrite bool_decide_eq_false_2.
Qed.

(** X5: without the control key, a context-menu event on a track that is
    selected calls nothing; on a track that is not selected it calls
    [onTracksChanged] with a collection of the same length in which that
    track, and no other, is selected, every track keeping its other
    fields. *)
Theorem handleContextMenuEvent_selects_only LEFT tracks event index track n :
  ctrlKey event = false →
  tracks !! index = Some track →
  (isSelected (val track) = true →
   handleContextMenuEvent LEFT tracks event index n = Some (None, n))
  ∧ (isSelected (val track) = false →
     ∃ next n',
       handleContextMenuEvent LEFT tracks event index n = Some (Some next, n')
       ∧ length next = length tracks
       ∧ ∀ j t, tracks !! j = Some t →
           ∃ t', next !! j = Some t'
                 ∧ isSelected (val t') = bool_decide (j = index)
                 ∧ trackId (val t') = trackId (val t)
                 ∧ options (val t') = options (val t)).
Proof.
  intros Hctrl Ht. split.
  - intros Hsel. unfold handleContextMenuEvent.
    by rewrite Hctrl, Ht, Hsel.
  - by apply handleContextMenuEvent_unselected.
Qed.

Lemma handleContextMenuEvent_selects_only_witness :
  ∃ next n',
    handleContextMenuEvent 0 Samples.three_tracks Samples.right_click 0 3
    = Some (Some next, n')
    ∧ (isSelected ∘ val <$> next) = [true; false; false].
Proof.
  destruct (handleContextMenuEvent_selects_only
              0%Z Samples.three_tracks Samples.right_click 0
              (MkObj 0 (MkTrackModel "a" [] false)) 3 eq_refl eq_refl)
    as [_ Hselect].
  destruct (Hselect eq_refl) as (next & n' & Hrun & _ & _).
  exists next, n'. split; [exact Hrun|].
  vm_compute in Hrun. injection Hrun as <- _. reflexivity.
Defined.

(** X6: [deselectAllTracks] keeps every track that is not selected as the
    object it is, and puts a new object, allocated by the call, in the place
    of every selected one; it allocates one object for each selected
    track. *)
Theorem deselectAllTracks_keeps_unselected tracks n :
  ∃ next,
    deselectAllTracks tracks n
    = Some (next,
            n + length (List.filter (λ t, isSelected (val t)) tracks))
    ∧ ∀ j track, tracks !! j = Some track →
        if isSelected (val track) then
          ∃ copy, next !! j = Some copy
                  ∧ n ≤ oid copy
                    < n + length (List.filter (λ t, isSelected (val t)) tracks)
        else next !! j = Some track.
Proof.
  unfold deselectAllTracks. revert n.
  induction tracks as [|t tracks IH]; intros n.
  - exists []. split; [simpl; unfold ret; do 2 f_equal; lia|]. done.
  - rewrite mapM_cons.
    assert (deselect t n
            = if isSelected (val t)
              then Some (MkObj n (setSelected false (val t)), S n)
              else Some (t, n)) as -> by (unfold deselect; by destruct (isSelected (val t))).
    simpl. destruct (isSelected (val t)) eqn:Hsel; simpl.
    + destruct (IH (S n)) as (next & -> & Hnext).
      eexists. split; [do 2 f_equal; lia|].
      intros [|j] track; simpl.
      * intros [= <-]. rewrite Hsel. eexists. split; [done|]. simpl. lia.
      * intros Hj. specialize (Hnext j track Hj).
        destruct (isSelected (val track)); [|done].
        destruct Hnext as (copy & ? & ?). exists copy. split; [done|lia].
    + destruct (IH n) as (next & -> & Hnext).
      eexists. split; [done|].
      intros [|j] track; simpl.
      * intros [= <-]. by rewrite Hsel.
      * apply Hnext.
Qed.

Lemma handleOutsideClick_Forall2 tracks event n :
  ∃ emitted n',
    handleOutsideClick tracks event n = Some (emitted, n')
    ∧ Forall2 deselected tracks (tracksAfter tracks emitted).
Proof.
  unfold handleOutsideClick.
  destruct (existsb _ tracks) eqn:Hsome.
  - unfold bind.
    destruct (deselectAllTracks_Forall2 tracks n) as (next & n' & -> & Hall).
    by eexists _, _.
  - eexists _, _. split; [done|]. by apply none_selected_Forall2.
Qed.

Lemma deselected_none_selected tracks next :
  Forall2 deselected tracks next →
  existsb (λ track, isSelected (val track)) next = false.
Proof.
  induction 1 as [|t t' l l' (Hs & _ & _) _ IH]; [done|].
  simpl. by rewrite Hs, IH.
Qed.

(** X7: after an outside click and the change it asked for, if any, a
    second outside click calls nothing. *)
Theorem second_outside_click_is_silent tracks event event' n emitted n' :
  handleOutsideClick tracks event n = Some (emitted, n') →
  handleOutsideClick (tracksAfter tracks emitted) event' n' = Some (None, n').
Proof.
  intros Hrun.
  destruct (handleOutsideClick_Forall2 tracks event n)
    as (emitted0 & n0 & Hrun0 & Hall).
  rewrite Hrun in Hrun0. injection Hrun0 as <- <-.
  unfold handleOutsideClick.
  by rewrite (deselected_none_selected _ _ Hall).
Qed.

Lemma second_outside_click_is_silent_witness :
  ∃ emitted n',
    handleOutsideClick Samples.three_tracks Samples.right_click 3
    = Some (emitted, n')
    ∧ handleOutsideClick (tracksAfter Samples.three_tracks emitted)
        Samples.right_click n' = Some (None, n').
Proof.
  eexists _, _. split; [vm_compute; reflexivity|].
  apply (second_outside_click_is_silent
           Samples.three_tracks Samples.right_click Samples.right_click 3).
  vm_compute. reflexivity.
Defined.

(** X21: a context-menu event without the control key on a track, and
    then, once the parent has taken the change, a second one on the same
    track: the second calls nothing. *)
Theorem second_context_menu_is_silent
    LEFT tracks event event' index track n emitted n' :
  ctrlKey event = false → ctrlKey event' = false →
  tracks !! index = Some track →
  handleContextMenuEvent LEFT tracks event index n = Some (emitted, n') →
  handleContextMenuEvent LEFT (tracksAfter tracks emitted) event' index n'
  = Some (None, n').
Proof.
  intros Hctrl Hctrl' Ht Hrun.
  destruct (isSelected (val track)) eqn:Hsel.
  - unfold handleContextMenuEvent in Hrun.
    rewrite Hctrl, Ht, Hsel in Hrun. simpl in Hrun.
    injection Hrun as <- <-. simpl.
    unfold handleContextMenuEvent. by rewrite Hctrl', Ht, Hsel.
  - destruct (handleContextMenuEvent_unselected LEFT _ _ _ _ n Hctrl Ht Hsel)
      as (next & n0 & Hrun0 & _ & Hnext).
    rewrite Hrun in Hrun0. injection Hrun0 as -> ->. simpl.
    destruct (Hnext index track Ht) as (t' & Ht' & Hs' & _).
    unfold handleContextMenuEvent. rewrite Hctrl', Ht'. 
    by rewrite Hs', bool_decide_eq_true_2.
Qed.

Lemma second_context_menu_is_silent_witness :
  ∃ emitted n',
    handleContextMenuEvent 0 Samples.three_tracks Samples.right_click 0 3
    = Some (emitted, n')
    ∧ handleContextMenuEvent 0 (tracksAfter Samples.three_tracks emitted)
        Samples.right_click 0 n' = Some (None, n').
Proof.
  eexists _, _. split; [vm_compute; reflexivity|].
  eapply (second_context_menu_is_silent
            0%Z Samples.three_tracks Samples.right_click Samples.right_click 0).
  - reflexivity.
  - reflexivity.
  - reflexivity.
  - vm_compute. reflexivity.
Defined.

(** X22: at an index where the collection has no track, a click with the
    left button and the control key, and a context-menu event without the
    control key, throw before any call of [onTracksChanged]. *)
Theorem handlers_throw_without_a_track LEFT tracks event index n :
  tracks !! index = None →
  (button event = LEFT → ctrlKey event = true →
   trackClicked LEFT tracks event index n = None)
  ∧ (ctrlKey event = false →
     handleContextMenuEvent LEFT tracks event index n = None).
Proof.
  intros Hnone. split.
  - intros Hb Hc. unfold trackClicked.
    rewrite bool_decide_eq_true_2, Hc by done. simpl.
    unfold bind, toggleOneTrack. by rewrite Hnone.
  - intros Hc. unfold handleContextMenuEvent. by rewrite Hc, Hnone.
Qed.

Lemma handlers_throw_without_a_track_witness :
  trackClicked 0 Samples.three_tracks Samples.ctrl_left_click 3 3 = None
  ∧ handleContextMenuEvent 0 Samples.three_tracks Samples.right_click 3 3
    = None.
Proof.
  destruct (handlers_throw_without_a_track
              0%Z Samples.three_tracks Samples.ctrl_left_click 3 3 eq_refl)
    as [Hclick _].
  destruct (handlers_throw_without_a_track
              0%Z Samples.three_tracks Samples.right_click 3 3 eq_refl)
    as [_ Hmenu].
  split; [by apply Hclick|by apply Hmenu].
Defined.

End ContextMenu.

Section Tools.
Import TrackContainer.
Local Open Scope nat_scope.

Lemma clickButton_selects_a_tool (this : State) i :
  selectedTool this ∈ [tools_DRAG; tools_ZOOM; tools_REORDER] →
  selectedTool (clickButton this i)
    ∈ [tools_DRAG; tools_ZOOM; tools_REORDER].
Proof.
  intros Hin. unfold clickButton.
  destruct i as [|[|[|i]]]; simpl; [| | |done];
    rewrite !elem_of_cons; auto.
Qed.

Lemma clicks_select_a_tool clicks (this : State) :
  selectedTool this ∈ [tools_DRAG; tools_ZOOM; tools_REORDER] →
  selectedTool (foldl clickButton this clicks)
    ∈ [tools_DRAG; tools_ZOOM; tools_REORDER].
Proof.
  revert this. induction clicks as [|i clicks IH]; intros this Hin; [done|].
  simpl. by apply IH, clickButton_selects_a_tool.
Qed.

(** X8: after any clicks on the tool buttons, exactly one of the three
    buttons is highlighted, and the sub-container that is rendered is the
    one of that button: the draggable one for the first, the zoomable one
    for the second, the reorderable one for the third.  A click on a button
    highlights that button. *)
Theorem one_tool_is_active clicks :
  let this := foldl clickButton initialState clicks in
  ((highlighted <$> renderToolSelectButtons this, renderSubContainer this)
   = ([true; false; false], DraggableTrackContainer)
   ∨ (highlighted <$> renderToolSelectButtons this, renderSubContainer this)
     = ([false; true; false], ZoomableTrackContainer)
   ∨ (highlighted <$> renderToolSelectButtons this, renderSubContainer this)
     = ([false; false; true], ReorderableTrackContainer))
  ∧ ∀ i, i < 3 →
      highlighted <$> renderToolSelectButtons (clickButton this i)
      = (λ j, bool_decide (j = i)) <$> [0; 1; 2].
Proof.
  intros this. split.
  - assert (selectedTool this ∈ [tools_DRAG; tools_ZOOM; tools_REORDER])
      as Hin by (apply clicks_select_a_tool; simpl; rewrite !elem_of_cons; auto).
    unfold renderToolSelectButtons, renderSubContainer.
    apply elem_of_cons in Hin as [->|Hin]; [by left|].
    apply elem_of_cons in Hin as [->|Hin]; [by right; left|].
    apply list_elem_of_singleton in Hin as ->. by right; right.
  - intros i Hi. destruct i as [|[|[|i]]]; [done|done|done|lia].
Qed.

End Tools.

(** ** Further properties of GenomeModelService *)

Section Loading.
Import JsNumber GenomeModelService.
Context `{ChromosomeIntervalClass}.

Implicit Types (w : World) (e : event) (o : outcome) (chr : string).

(** X10: a call that rejects leaves the cache, what [hasChromosome]
    answers and the allocation counter as they were; all it does is leave
    the calls that are suspended. *)
Theorem rejected_call_changes_nothing w k response w1 chr :
  step w (Settle k response) = (w1, Rejected chr) →
  cache w1 = cache w
  ∧ nextOid w1 = nextOid w
  ∧ inflight w !! k = Some chr
  ∧ inflight w1 = delete k (inflight w)
  ∧ ∀ c, hasChromosome c (service w1) = hasChromosome c (service w).
Proof.
  simpl. destruct (inflight w !! k) as [c|] eqn:Hk; [|done].
  unfold resume_call.
  destruct (response ≫= buildDetails) as [d|] eqn:Hb; [done|].
  intros [= <- <-]. repeat split; done.
Qed.

(** X11: the cache never loses a property: once [hasChromosome(chr)] is
    true it stays true through any later calls and settlements, and
    [loadChromosome(chr)] returns a value. *)
Theorem loaded_chromosome_stays_loaded w evs chr :
  hasChromosome chr (service w) = true →
  hasChromosome chr (service (run w evs).1) = true
  ∧ ∃ found,
      (loadChromosome chr (service (run w evs).1)).1 = Return found.
Proof.
  intros Hhas.
  assert (hasChromosome chr (service (run w evs).1) = true) as Hlater
    by (by apply run_hasChromosome_mono).
  split; [done|].
  unfold hasChromosome in Hlater. unfold loadChromosome.
  destruct (get (loadedChromosomes (service (run w evs).1)) chr) as [v|];
    [by exists v|done].
Qed.

(** X12: once a chromosome is loaded it is not fetched again: every later
    call of [loadChromosomeAsync] for it returns from the cache. *)
Theorem loaded_chromosome_is_not_fetched_again w evs i chr :
  hasChromosome chr (service w) = true →
  evs !! i = Some (Call chr) →
  ∃ found, (run w evs).2 !! i = Some (Hit chr found).
Proof.
  revert w i. induction evs as [|e evs IH]; intros w i Hhas Hi; [done|].
  rewrite run_cons. destruct i as [|i]; simpl in *.
  - injection Hi as ->. simpl. unfold start_call.
    unfold hasChromosome in Hhas.
    destruct (get (loadedChromosomes (service w)) chr) as [v|]; [|done].
    by exists v.
  - apply IH; [|done].
    apply (step_hasChromosome_mono w e (step w e).1 (step w e).2 chr);
      [by destruct (step w e)|done].
Qed.

(** X13: a call that is awaited and succeeds makes every later awaited
    call for the same chromosome return the same object, from the cache,
    whatever the network would answer. *)
Theorem awaited_call_is_memoized chr response w w1 o found response' :
  loadChromosomeAsync chr response w = (w1, o) →
  returned o = Some (chr, found) →
  loadChromosomeAsync chr response' w1 = (w1, Hit chr found).
Proof.
  rewrite !loadChromosomeAsync_awaited. intros Hcall Hres.
  assert (get (cache w1) chr = Some found) as ->; [|done].
  destruct (get (cache w) chr) as [f|] eqn:Hc.
  - injection Hcall as <- <-. simpl in Hres. by injection Hres as <-.
  - unfold resume_call in Hcall.
    destruct (response ≫= buildDetails) as [d|]; injection Hcall as <- <-;
      [|done].
    simpl in Hres. injection Hres as <-. apply get_Details.
    unfold cache. simpl. by rewrite lookup_insert_eq.
Qed.

(** X14: in every run from a new service, the object that a completed
    fetch stores is a new object: it is not the object cached for any
    chromosome before. *)
Theorem completed_fetch_stores_a_new_object evs e w1 chr details c cached :
  step (run init evs).1 e = (w1, Fetched chr details) →
  cache (run init evs).1 !! c = Some cached →
  ¬ same_ref details cached.
Proof.
  intros Hstep Hc. eapply fetched_is_a_new_object; [|done|done].
  apply run_oids_below. intros c' d'. unfold cache. simpl.
  by rewrite lookup_empty.
Qed.

(** X23: the service does not share a fetch: as long as no fetch has
    settled, every call for a chromosome that [hasChromosome] does not
    report suspends on a fetch of its own, also when calls for the same
    chromosome are already suspended. *)
Theorem every_uncached_call_fetches w evs i chr :
  hasChromosome chr (service w) = false →
  Forall (λ e, ∃ c, e = Call c) evs →
  evs !! i = Some (Call chr) →
  (run w evs).2 !! i = Some (Suspended chr).
Proof.
  revert w i. induction evs as [|e evs IH]; intros w i Hc Hcalls Hi; [done|].
  apply Forall_cons_1 in Hcalls as [[c ->] Hcalls].
  rewrite run_cons. destruct i as [|i]; simpl in *.
  - injection Hi as ->. unfold start_call. unfold hasChromosome in Hc.
    by destruct (get (loadedChromosomes (service w)) chr).
  - apply IH; [|done|done].
    destruct (start_call c w) as [w1 o] eqn:Hs. simpl.
    apply start_call_cache in Hs. unfold hasChromosome in *.
    unfold cache in Hs. by rewrite Hs.
Qed.

End Loading.

Section LoadingOnSamples.
Import JsNumber GenomeModelService.

Lemma rejected_call_changes_nothing_witness :
  ∃ w1, step (run init [Call "chr1"]).1 (Settle 0 (Some Samples.no_coords_data))
        = (w1, Rejected "chr1")
        ∧ cache w1 = cache (run init [Call "chr1"]).1.
Proof.
  eexists. split; [vm_compute; reflexivity|].
  eapply (rejected_call_changes_nothing
            (run init [Call "chr1"]).1 0 (Some Samples.no_coords_data)).
  vm_compute. reflexivity.
Defined.

Lemma loaded_chromosome_stays_loaded_witness :
  hasChromosome "chr1"
    (service (run (run init Samples.sequential).1
                [Call "chr2"; Settle 0 None]).1) = true.
Proof.
  apply (loaded_chromosome_stays_loaded
           (run init Samples.sequential).1 [Call "chr2"; Settle 0 None] "chr1").
  vm_compute. reflexivity.
Defined.

Lemma loaded_chromosome_is_not_fetched_again_witness :
  ∃ found,
    (run (run init Samples.sequential).1 [Call "chr2"; Call "chr1"]).2 !! 1%nat
    = Some (Hit "chr1" found).
Proof.
  apply (loaded_chromosome_is_not_fetched_again
           (run init Samples.sequential).1 [Call "chr2"; Call "chr1"] 1 "chr1").
  - vm_compute. reflexivity.
  - reflexivity.
Defined.

Lemma awaited_call_is_memoized_witness :
  ∃ w1 details,
    loadChromosomeAsync "chr1" (Some Samples.chr1_data) init
    = (w1, Fetched "chr1" details)
    ∧ loadChromosomeAsync "chr1" None w1
      = (w1, Hit "chr1" (Details details)).
Proof.
  eexists _, _. split; [vm_compute; reflexivity|].
  eapply (awaited_call_is_memoized "chr1" (Some Samples.chr1_data) init).
  - vm_compute. reflexivity.
  - reflexivity.
Defined.

Lemma completed_fetch_stores_a_new_object_witness :
  ∃ w1 details cached,
    step (run init [Call "chr1"; Call "chr1"; Settle 0 (Some Samples.chr1_data)]).1
         (Settle 0 (Some Samples.chr1_data))
    = (w1, Fetched "chr1" details)
    ∧ cache (run init [Call "chr1"; Call "chr1";
                       Settle 0 (Some Samples.chr1_data)]).1 !! "chr1"
      = Some cached
    ∧ ¬ same_ref details cached.
Proof.
  eexists _, _, _. split; [vm_compute; reflexivity|].
  split; [vm_compute; reflexivity|].
  eapply (completed_fetch_stores_a_new_object
            [Call "chr1"; Call "chr1"; Settle 0 (Some Samples.chr1_data)]
            (Settle 0 (Some Samples.chr1_data)) _ "chr1" _ "chr1").
  - vm_compute. reflexivity.
  - vm_compute. reflexivity.
Defined.

Lemma every_uncached_call_fetches_witness :
  (run init [Call "chr1"; Call "chr2"; Call "chr1"]).2 !! 2%nat
  = Some (Suspended "chr1").
Proof.
  apply (every_uncached_call_fetches
           init [Call "chr1"; Call "chr2"; Call "chr1"] 2 "chr1").
  - reflexivity.
  - repeat constructor; by eexists.
  - reflexivity.
Defined.

End LoadingOnSamples.

Section BoundingBox.
Import JsNumber GenomeModelService.
Context `{ChromosomeIntervalClass}.

Lemma le_finite_trans a b c : finite b → le a b → le b c → le a c.
Proof.
  destruct a, b, c; simpl; try done. intros _. apply Qcle_trans.
Qed.

(** One step of the fold for a lower corner. *)
Lemma min_step acc v :
  finite v → acc = PosInf ∨ finite acc →
  finite (JsNumber.min acc v)
  ∧ le (JsNumber.min acc v) v
  ∧ ∀ c, le acc c → le (JsNumber.min acc v) c.
Proof.
  intros Hv Hacc. destruct v as [| |q|]; try done.
  destruct Hacc as [->|Hacc]; [|destruct acc as [| |p|]; try done]; simpl.
  - split; [done|]. split; [apply Qcle_refl|]. by intros [].
  - unfold Qc_ltb. case_bool_decide as Hlt; simpl.
    + split; [done|]. split; [apply Qcle_refl|].
      intros [| |c|]; simpl; try done. intros Hpc.
      eapply Qcle_trans; [by apply Qclt_le_weak|done].
    + split; [done|]. split; [by apply Qcnot_lt_le|]. done.
Qed.

(** One step of the fold for an upper corner. *)
Lemma max_step acc v :
  finite v → acc = NegInf ∨ finite acc →
  finite (JsNumber.max acc v)
  ∧ le v (JsNumber.max acc v)
  ∧ ∀ c, le c acc → le c (JsNumber.max acc v).
Proof.
  intros Hv Hacc. destruct v as [| |q|]; try done.
  destruct Hacc as [->|Hacc]; [|destruct acc as [| |p|]; try done]; simpl.
  - split; [done|]. split; [apply Qcle_refl|]. by intros [].
  - unfold Qc_ltb. case_bool_decide as Hlt; simpl.
    + split; [done|]. split; [apply Qcle_refl|].
      intros [| |c|]; simpl; try done. intros Hcp.
      eapply Qcle_trans; [done|by apply Qclt_le_weak].
    + split; [done|]. split; [by apply Qcnot_lt_le|]. done.
Qed.

Lemma foldl_min_lower_bound (vs : list number) acc :
  Forall finite vs → acc = PosInf ∨ finite acc →
  (foldl JsNumber.min acc vs = PosInf ∨ finite (foldl JsNumber.min acc vs))
  ∧ (∀ c, le acc c → le (foldl JsNumber.min acc vs) c)
  ∧ ∀ v, v ∈ vs → le (foldl JsNumber.min acc vs) v.
Proof.
  intros Hvs. revert acc. induction Hvs as [|v vs Hv _ IH]; intros acc Hacc.
  - simpl. split; [done|]. split; [done|]. by intros v ?%elem_of_nil.
  - simpl. destruct (min_step acc v Hv Hacc) as (Hfin & Hle & Hdown).
    destruct (IH (JsNumber.min acc v) (or_intror Hfin)) as (Hr & Hmono & Hall).
    split; [done|]. split; [by auto|].
    intros v' [->|Hin]%elem_of_cons; [by apply Hmono|by apply Hall].
Qed.

Lemma foldl_max_upper_bound (vs : list number) acc :
  Forall finite vs → acc = NegInf ∨ finite acc →
  (foldl JsNumber.max acc vs = NegInf ∨ finite (foldl JsNumber.max acc vs))
  ∧ (∀ c, le c acc → le c (foldl JsNumber.max acc vs))
  ∧ ∀ v, v ∈ vs → le v (foldl JsNumber.max acc vs).
Proof.
  intros Hvs. revert acc. induction Hvs as [|v vs Hv _ IH]; intros acc Hacc.
  - simpl. split; [done|]. split; [done|]. by intros v ?%elem_of_nil.
  - simpl. destruct (max_step acc v Hv Hacc) as (Hfin & Hle & Hup).
    destruct (IH (JsNumber.max acc v) (or_intror Hfin)) as (Hr & Hmono & Hall).
    split; [done|]. split; [by auto|].
    intros v' [->|Hin]%elem_of_cons; [by apply Hmono|by apply Hall].
Qed.

(** The corners of the expanded box, coordinate by coordinate. *)
Lemma foldl_expandByPoint box (points : list THREE.Vector3) :
  let result := foldl THREE.expandByPoint box points in
  THREE.x (THREE.min result)
    = foldl JsNumber.min (THREE.x (THREE.min box)) (THREE.x <$> points)
  ∧ THREE.y (THREE.min result)
    = foldl JsNumber.min (THREE.y (THREE.min box)) (THREE.y <$> points)
  ∧ THREE.z (THREE.min result)
    = foldl JsNumber.min (THREE.z (THREE.min box)) (THREE.z <$> points)
  ∧ THREE.x (THREE.max result)
    = foldl JsNumber.max (THREE.x (THREE.max box)) (THREE.x <$> points)
  ∧ THREE.y (THREE.max result)
    = foldl JsNumber.max (THREE.y (THREE.max box)) (THREE.y <$> points)
  ∧ THREE.z (THREE.max result)
    = foldl JsNumber.max (THREE.z (THREE.max box)) (THREE.z <$> points).
Proof.
  revert box. induction points as [|p points IH]; intros box; [done|].
  simpl. apply (IH (THREE.expandByPoint box p)).
Qed.

(** The bounding box of finite points contains each of them, and its
    corners are finite or those of the empty box. *)
Lemma boundingBoxOf_contains (points : list THREE.Vector3) point :
  Forall THREE.Vector3_finite points → point ∈ points →
  THREE.containsPoint (boundingBoxOf points) point.
Proof.
  intros Hfin Hin. unfold THREE.containsPoint, boundingBoxOf.
  destruct (foldl_expandByPoint THREE.Box3_new points)
    as (-> & -> & -> & -> & -> & ->). simpl.
  assert (Forall finite (THREE.x <$> points)) as Hx
    by (apply Forall_fmap; eapply Forall_impl; [done|]; by intros ? (?&?&?)).
  assert (Forall finite (THREE.y <$> points)) as Hy
    by (apply Forall_fmap; eapply Forall_impl; [done|]; by intros ? (?&?&?)).
  assert (Forall finite (THREE.z <$> points)) as Hz
    by (apply Forall_fmap; eapply Forall_impl; [done|]; by intros ? (?&?&?)).
  repeat split.
  - apply foldl_min_lower_bound; [done|by left|by apply list_elem_of_fmap_2].
  - apply foldl_max_upper_bound; [done|by left|by apply list_elem_of_fmap_2].
  - apply foldl_min_lower_bound; [done|by left|by apply list_elem_of_fmap_2].
  - apply foldl_max_upper_bound; [done|by left|by apply list_elem_of_fmap_2].
  - apply foldl_min_lower_bound; [done|by left|by apply list_elem_of_fmap_2].
  - apply foldl_max_upper_bound; [done|by left|by apply list_elem_of_fmap_2].
Qed.


(** X15: when the coordinates of the positions of the details are finite,
    the bounding box of the details contains every one of the
    positions. *)
Theorem boundingBox_contains_positions data details point :
  buildDetails data = Some details →
  Forall THREE.Vector3_finite (positions details) →
  point ∈ positions details →
  THREE.containsPoint (boundingBox details) point.
Proof.
  intros Hbuilt Hfin Hin.
  destruct (buildDetails_scales _ _ Hbuilt) as (xyz & _ & _ & Hscales).
  cbv zeta in Hscales. destruct Hscales as (-> & _).
  by apply boundingBoxOf_contains.
Qed.

End BoundingBox.

Section BoundingBoxOnSamples.
Import JsNumber GenomeModelService.

Lemma boundingBox_contains_positions_witness :
  ∃ details,
    buildDetails Samples.chr1_data = Some details
    ∧ THREE.containsPoint (boundingBox details)
        (THREE.MkVector3 (of_Z 3) (of_Z 1) (of_Z 1)).
Proof.
  eexists. split; [vm_compute; reflexivity|].
  eapply (boundingBox_contains_positions Samples.chr1_data).
  - vm_compute. reflexivity.
  - repeat constructor.
  - vm_compute. do 2 right. left.
Defined.

End BoundingBoxOnSamples.

Section UnitRanges.
Import JsNumber GenomeModelService.
Context `{ChromosomeIntervalClass}.

(** The extent of finitely many finite numbers, at least one: the
    difference overflows, or is a number that is not negative. *)
Lemma extent_of_finite (vs : list number) :
  Forall finite vs → vs ≠ [] →
  let extent := sub (foldl JsNumber.max NegInf vs)
                    (foldl JsNumber.min PosInf vs) in
  extent = PosInf ∨ ∃ len, extent = Fin len ∧ 0 ≤ len.
Proof.
  intros Hfin Hne. destruct vs as [|v vs]; [done|].
  destruct (foldl_min_lower_bound (v :: vs) PosInf Hfin (or_introl eq_refl))
    as (Hmin & _ & Hlow).
  destruct (foldl_max_upper_bound (v :: vs) NegInf Hfin (or_introl eq_refl))
    as (Hmax & _ & Hup).
  specialize (Hlow v (list_elem_of_here _ _)).
  specialize (Hup v (list_elem_of_here _ _)).
  apply Forall_cons_1 in Hfin as [Hv _].
  destruct v as [| |q|]; try done.
  destruct (foldl JsNumber.min PosInf (Fin q :: vs)) as [| |m|];
    destruct (foldl JsNumber.max NegInf (Fin q :: vs)) as [| |M|];
    simpl in Hlow, Hup; try done;
    try (by destruct Hmin); try (by destruct Hmax).
  simpl. apply round64_nonneg.
  unfold Qcminus. apply (proj1 (Qcle_minus_iff m M)).
  by apply Qcle_trans with q.
Qed.

Lemma max_of_finite p q :
  ∃ r, JsNumber.max (Fin p) (Fin q) = Fin r ∧ p ≤ r ∧ q ≤ r.
Proof.
  simpl. unfold Qc_ltb. case_bool_decide as Hlt.
  - exists q. split; [done|]. split; [by apply Qclt_le_weak|apply Qcle_refl].
  - exists p. split; [done|]. split; [apply Qcle_refl|by apply Qcnot_lt_le].
Qed.

(** When the largest of three such extents is a number, all three are
    numbers, and none is above it. *)
Lemma largest_of_extents (a b c : number) largest :
  (a = PosInf ∨ ∃ l, a = Fin l ∧ 0 ≤ l) →
  (b = PosInf ∨ ∃ l, b = Fin l ∧ 0 ≤ l) →
  (c = PosInf ∨ ∃ l, c = Fin l ∧ 0 ≤ l) →
  max3 a b c = Fin largest →
  ∃ la lb lc,
    a = Fin la ∧ b = Fin lb ∧ c = Fin lc
    ∧ 0 ≤ la ≤ largest ∧ 0 ≤ lb ≤ largest ∧ 0 ≤ lc ≤ largest.
Proof.
  intros [->|(la & -> & Ha)] [->|(lb & -> & Hb)] [->|(lc & -> & Hc)];
    unfold max3; simpl; try done;
    try (by destruct (Qc_ltb la lb)).
  destruct (max_of_finite la lb) as (lab & Hab & Hla & Hlb).
  simpl in Hab. rewrite Hab.
  destruct (max_of_finite lab lc) as (l & Hl & Hlab & Hlc).
  rewrite Hl. intros [= ->].
  exists la, lb, lc. repeat split; try done.
  - by eapply Qcle_trans.
  - by eapply Qcle_trans.
Qed.

(** The lengths of the box of finite positions, at least one. *)
Lemma lengths_of_details data details :
  buildDetails data = Some details →
  Forall THREE.Vector3_finite (positions details) →
  positions details ≠ [] →
  let box := boundingBox details in
  D3.range (x details) = (zero, div (xLen box) (largestLen box))
  ∧ D3.range (y details) = (zero, div (yLen box) (largestLen box))
  ∧ D3.range (z details) = (zero, div (zLen box) (largestLen box))
  ∧ (xLen box = PosInf ∨ ∃ l, xLen box = Fin l ∧ 0 ≤ l)
  ∧ (yLen box = PosInf ∨ ∃ l, yLen box = Fin l ∧ 0 ≤ l)
  ∧ (zLen box = PosInf ∨ ∃ l, zLen box = Fin l ∧ 0 ≤ l).
Proof.
  intros Hbuilt Hpts Hpne box. subst box.
  destruct (buildDetails_scales _ _ Hbuilt) as (xyz & _ & _ & Hscales).
  cbv zeta in Hscales.
  destruct Hscales as (Hbox & _ & _ & _ & Hrx & Hry & Hrz).
  rewrite Hbox. repeat (split; [done|]).
  set (points := positions details) in *.
  unfold xLen, yLen, zLen, boundingBoxOf.
  destruct (foldl_expandByPoint THREE.Box3_new points)
    as (-> & -> & -> & -> & -> & ->). simpl.
  repeat split; apply extent_of_finite;
    try (by destruct points);
    apply Forall_fmap; (eapply Forall_impl; [done|]); by intros ? (?&?&?).
Qed.

(** X16: when the coordinates of the positions are finite, there is at
    least one position, and the largest axis length is a finite number
    other than zero, the range of each of the three scales ends at a
    number between 0 and 1. *)
Theorem scale_ranges_within_unit data details largest :
  buildDetails data = Some details →
  Forall THREE.Vector3_finite (positions details) →
  positions details ≠ [] →
  largestLen (boundingBox details) = Fin largest →
  largest ≠ 0 →
  ∃ rx ry rz,
    D3.range (x details) = (zero, Fin rx)
    ∧ D3.range (y details) = (zero, Fin ry)
    ∧ D3.range (z details) = (zero, Fin rz)
    ∧ 0 ≤ rx ≤ 1 ∧ 0 ≤ ry ≤ 1 ∧ 0 ≤ rz ≤ 1.
Proof.
  intros Hbuilt Hfin Hne Hlargest Hnz.
  destruct (lengths_of_details _ _ Hbuilt Hfin Hne)
    as (-> & -> & -> & Hx & Hy & Hz).
  destruct (largest_of_extents _ _ _ _ Hx Hy Hz Hlargest)
    as (lx & ly & lz & -> & -> & -> & Hlx & Hly & Hlz).
  rewrite Hlargest.
  assert (0 < largest) as Hpos.
  { destruct (Qcle_lt_or_eq 0 largest) as [?|Heq]; [|done|by destruct Hnz].
    destruct Hlx. by eapply Qcle_trans. }
  assert (∀ len, 0 ≤ len ≤ largest →
            ∃ r, div (Fin len) (Fin largest) = Fin r ∧ 0 ≤ r ≤ 1) as Hunit.
  { intros len [H0 Hle]. simpl. unfold Qc_eqb.
    rewrite bool_decide_eq_false_2 by done. apply round64_unit.
    assert (len / largest * largest = len) as Hmul by (field; done).
    split; apply (Qcmult_le_mono_pos_r _ _ largest Hpos); rewrite Hmul.
    - by rewrite Qcmult_0_l.
    - by rewrite Qcmult_1_l. }
  destruct (Hunit lx Hlx) as (rx & -> & Hrx).
  destruct (Hunit ly Hly) as (ry & -> & Hry).
  destruct (Hunit lz Hlz) as (rz & -> & Hrz).
  by exists rx, ry, rz.
Qed.

(** X17: when the coordinates of the positions are finite, there is at
    least one position, and the positions all coincide, so that the
    largest axis length is 0, the range of each of the three scales ends
    at NaN. *)
Theorem coinciding_positions_give_NaN data details :
  buildDetails data = Some details →
  Forall THREE.Vector3_finite (positions details) →
  positions details ≠ [] →
  largestLen (boundingBox details) = zero →
  D3.range (x details) = (zero, NaN)
  ∧ D3.range (y details) = (zero, NaN)
  ∧ D3.range (z details) = (zero, NaN).
Proof.
  intros Hbuilt Hfin Hne Hlen.
  destruct (lengths_of_details _ _ Hbuilt Hfin Hne)
    as (-> & -> & -> & Hx & Hy & Hz).
  destruct (largest_of_extents _ _ _ _ Hx Hy Hz Hlen)
    as (lx & ly & lz & -> & -> & -> & Hlx & Hly & Hlz).
  rewrite Hlen.
  assert (lx = 0) as -> by (destruct Hlx; by apply Qcle_antisym).
  assert (ly = 0) as -> by (destruct Hly; by apply Qcle_antisym).
  assert (lz = 0) as -> by (destruct Hlz; by apply Qcle_antisym).
  done.
Qed.

(** X18: a document with genomic coordinates and an empty array of
    positions is loaded all the same when the constructor of the interval
    returns: the bounding box is the empty box, from +Infinity to
    -Infinity on every axis, and the range of each scale ends at NaN. *)
Theorem no_positions_give_the_empty_box data (coords : list RangeInterval)
    (first final : RangeInterval) built :
  data_xyzPositions data = Some [] →
  data_genomicCoords data = Some (Some <$> coords) →
  head coords = Some first →
  last coords = Some final →
  ChromosomeInterval_new "chr21" first.1 final.2 = Some built →
  ∃ details,
    buildDetails data = Some details
    ∧ boundingBox details = THREE.Box3_new
    ∧ positions details = []
    ∧ interval details = built
    ∧ D3.domain (x details) = (PosInf, NegInf)
    ∧ D3.range (x details) = (zero, NaN)
    ∧ D3.range (y details) = (zero, NaN)
    ∧ D3.range (z details) = (zero, NaN).
Proof.
  intros Hxyz Hcoords Hfirst Hfinal Hbuilt.
  assert (mapM id (Some <$> coords) = Some coords) as Hmap.
  { apply mapM_Some. clear. induction coords; by constructor. }
  unfold buildDetails. rewrite Hxyz, Hcoords.
  cbn [mbind option_bind].
  change (mapM (fmap THREE.Vector3_new) []) with (Some (@nil THREE.Vector3)).
  cbn [mbind option_bind]. rewrite Hmap.
  cbn [mbind option_bind]. rewrite Hfirst, Hfinal.
  cbn [mbind option_bind]. rewrite Hbuilt.
  eexists. split; [done|]. done.
Qed.

End UnitRanges.

Section UnitRangesOnSamples.
Import JsNumber GenomeModelService.

Lemma scale_ranges_within_unit_witness :
  ∃ details rx ry rz,
    buildDetails Samples.chr1_data = Some details
    ∧ D3.range (x details) = (zero, Fin rx)
    ∧ D3.range (y details) = (zero, Fin ry)
    ∧ D3.range (z details) = (zero, Fin rz)
    ∧ 0 ≤ rx ≤ 1 ∧ 0 ≤ ry ≤ 1 ∧ 0 ≤ rz ≤ 1.
Proof.
  eexists.
  match goal with
  | |- ∃ rx ry rz, buildDetails _ = Some ?d ∧ _ =>
      destruct (scale_ranges_within_unit Samples.chr1_data d (Qc_of_Z 10))
        as (rx & ry & rz & Hranges)
  end.
  - vm_compute. reflexivity.
  - repeat constructor.
  - done.
  - vm_compute. f_equal. apply Qc_is_canon. reflexivity.
  - by vm_compute.
  - exists rx, ry, rz. split; [vm_compute; reflexivity|exact Hranges].
Defined.

Lemma coinciding_positions_give_NaN_witness :
  ∃ details,
    buildDetails Samples.point_data = Some details
    ∧ D3.range (x details) = (zero, NaN)
    ∧ D3.range (y details) = (zero, NaN)
    ∧ D3.range (z details) = (zero, NaN).
Proof.
  eexists. split; [vm_compute; reflexivity|].
  eapply (coinciding_positions_give_NaN Samples.point_data).
  - vm_compute. reflexivity.
  - repeat constructor.
  - done.
  - vm_compute. f_equal. apply Qc_is_canon. reflexivity.
Defined.

Lemma no_positions_give_the_empty_box_witness :
  ∃ details,
    buildDetails Samples.no_positions_data = Some details
    ∧ boundingBox details = THREE.Box3_new
    ∧ interval details = ("chr21", of_Z 0, of_Z 10).
Proof.
  destruct (@no_positions_give_the_empty_box Samples.plain_intervals
              Samples.no_positions_data
              [(of_Z 0, of_Z 10)] (of_Z 0, of_Z 10) (of_Z 0, of_Z 10)
              ("chr21", of_Z 0, of_Z 10))
    as (details & Hb & Hbox & _ & Hinterval & _); try reflexivity.
  by exists details.
Defined.

End UnitRangesOnSamples.


(** ** Further properties of GenomeNavigator and HicTrackConfig *)

Section NavigatorRuns.
Import GenomeNavigator.

Variable MIN : Qc.
Context {R : Type} `{DisplayedRegionModel.Methods R}.

(** X19: whatever the view model does, through any sequence of zooms and
    range-sets a view region whose width does not compare below
    [MIN_VIEW_REGION_SIZE] keeps a width that does not compare below it;
    the width may become NaN.  When the view model never gives the width
    NaN, a view region that is at least [MIN_VIEW_REGION_SIZE] wide stays
    at least that wide. *)
Theorem width_stays_above_minimum (ms : list method) (this : State R) :
  (JsNumber.lt (shownWidth this) (JsNumber.Fin MIN) = false →
   JsNumber.lt
     (shownWidth (foldl (λ s m, _setModelState MIN m s) this ms))
     (JsNumber.Fin MIN) = false)
  ∧ ((∀ r : R, DisplayedRegionModel.getWidth r ≠ JsNumber.NaN) →
     JsNumber.le (JsNumber.Fin MIN) (shownWidth this) →
     JsNumber.le (JsNumber.Fin MIN)
       (shownWidth (foldl (λ s m, _setModelState MIN m s) this ms))).
Proof.
  assert (JsNumber.lt (shownWidth this) (JsNumber.Fin MIN) = false →
          JsNumber.lt
            (shownWidth (foldl (λ s m, _setModelState MIN m s) this ms))
            (JsNumber.Fin MIN) = false) as Hnot.
  { revert this. induction ms as [|m ms IH]; intros this Hmin; [done|].
    simpl. by apply IH, _setModelState_not_below. }
  split; [done|]. intros Hnum Hle.
  apply not_lt_le; [apply Hnum|]. by apply Hnot, le_not_lt.
Qed.

End NavigatorRuns.

Section NavigatorRunsWitness.
Import GenomeNavigator.

Lemma width_stays_above_minimum_witness :
  JsNumber.le (JsNumber.Fin Samples.hundred)
    (shownWidth
       (foldl (λ s m, _setModelState Samples.hundred m s) Samples.wide_region
          [zoom_ Samples.quarter None; setRegion_ 0 1;
           zoom_ (Qc_of_Z 2) None])).
Proof.
  apply (width_stays_above_minimum Samples.hundred
           [zoom_ Samples.quarter None; setRegion_ 0 1; zoom_ (Qc_of_Z 2) None]
           Samples.wide_region).
  - done.
  - by vm_compute.
Defined.

End NavigatorRunsWitness.


Section RefetchRelation.
Import HicTrackConfig.

Context {NormalizationMode BinSize Other : Type}.
Context `{EqDecision NormalizationMode} `{EqDecision BinSize}.

Implicit Types
  (a b c : TrackOptions NormalizationMode BinSize Other).

(** X20: the refetch test does not depend on which options are the old
    ones and which the new ones; it is false for unchanged options; and a
    change that needs a refetch still needs one when it is made in two
    steps: the test is true for at least one of the steps. *)
Theorem shouldFetch_is_symmetric a b :
  shouldFetchBecauseOptionChange a b = shouldFetchBecauseOptionChange b a
  ∧ shouldFetchBecauseOptionChange a a = false
  ∧ ∀ c, shouldFetchBecauseOptionChange a b = true →
         shouldFetchBecauseOptionChange a c = true
         ∨ shouldFetchBecauseOptionChange c b = true.
Proof.
  unfold shouldFetchBecauseOptionChange, strict_ne. split; [|split].
  - f_equal; f_equal; apply bool_decide_ext; split; congruence.
  - by rewrite !bool_decide_eq_true_2.
  - intros c.
    repeat case_bool_decide; simpl; auto; intros; congruence.
Qed.

End RefetchRelation.

